(** * Petri-net parser and reachability explorer (pnml_parser.py)

    A shallow embedding of [parsePNML] and [compute_reachable_markings],
    followed by the properties of the net builder, the firing rule and
    the breadth-first / depth-first exploration of the marking graph. *)

From Stdlib Require Import ZArith Ascii.
From stdpp Require Import base option list sets gmap strings sorting.

#[local] Set Warnings "-clear-no-such-hyp,-register-all".


(** ** Exceptions and results *)

(** The messages of [Error] are kept as data: every constructor stands for
    one [raise Error(...)] of the source and carries the values its message
    interpolates.  [KeyError] is the built-in exception of a failed
    [dict[key]]. *)
Inductive Error : Type :=
  | NoNetElement
  | PlaceNoId
  | DuplicatePlaceId (pid : string)
  | TransitionNoId
  | DuplicateTransitionId (tid : string)
  | ArcNoId
  | DuplicateArcId (aid : string)
  | ArcNoSourceTarget (aid : string)
  | NonPositiveWeight (aid : string) (weight : Z)
  | SourceNotFound (aid source : string)
  | TargetNotFound (aid target : string)
  | IsolatedNodes (nodes : list (string * string))
  | NonBinaryMarkings (bad_markings : list (string * Z))
  | HeavyArcs (heavy_arcs : list string)
  | KeyError (key : string).

Inductive result (A : Type) : Type :=
  | Ok (a : A)
  | Raise (e : Error).
Arguments Ok {A} a.
Arguments Raise {A} e.

Global Instance result_ret : MRet result := λ A a, Ok a.
Global Instance result_bind : MBind result := λ A B f m,
  match m with
  | Ok a => f a
  | Raise e => Raise e
  end.

(** ** Python dictionaries

    A [dict] keeps its keys in insertion order; it is embedded as the list
    of its items.  [d[k]] is [dict_get], [k in d] is [dict_mem],
    [d[k] = v] is [dict_set] and an in-place change of the object stored
    under [k] is [dict_update]. *)
Section Dict.
Context {V : Type}.

Definition dict_keys (d : list (string * V)) : list string := d.*1.

Fixpoint dict_get (d : list (string * V)) (k : string) : option V :=
  match d with
  | [] => None
  | (k', v) :: d' => if decide (k' = k) then Some v else dict_get d' k
  end.

Definition dict_mem (k : string) (d : list (string * V)) : bool :=
  bool_decide (is_Some (dict_get d k)).

Fixpoint dict_set (k : string) (v : V) (d : list (string * V)) :
    list (string * V) :=
  match d with
  | [] => [(k, v)]
  | (k', v') :: d' =>
      if decide (k' = k) then (k, v) :: d' else (k', v') :: dict_set k v d'
  end.

Fixpoint dict_update (k : string) (f : V → V) (d : list (string * V)) :
    list (string * V) :=
  match d with
  | [] => []
  | (k', v) :: d' =>
      if decide (k' = k) then (k', f v) :: d' else (k', v) :: dict_update k f d'
  end.

Definition dict_getitem (d : list (string * V)) (k : string) : result V :=
  match dict_get d k with
  | Some v => Ok v
  | None => Raise (KeyError k)
  end.
End Dict.

(** ** Data structures *)

Module Place.
Record t : Type := mk {
  id : string;
  name : option string;
  initial_marking : Z;
  incoming : list string;
  outgoing : list string
}.
End Place.

Module Transition.
Record t : Type := mk {
  id : string;
  name : option string;
  incoming : list string;
  outgoing : list string
}.
End Transition.

Module Arc.
Record t : Type := mk {
  id : string;
  source : string;
  target : string;
  weight : Z
}.
End Arc.

Module PetriNet.
Record t : Type := mk {
  id : option string;
  places : list (string * Place.t);
  transitions : list (string * Transition.t);
  arcs : list (string * Arc.t)
}.
End PetriNet.

(** ** Parsed XML documents

    [parsePNML] reads its file with [xml.etree.ElementTree]; the embedding
    starts from the parsed tree.  An [Element] has a tag, attributes, the
    text before its first child, and children. *)
Inductive Element : Type :=
  | mkElement (tag : string) (attrib : list (string * string))
              (text : option string) (children : list Element).

Definition tag (e : Element) : string :=
  match e with mkElement t _ _ _ => t end.
Definition attrib (e : Element) : list (string * string) :=
  match e with mkElement _ a _ _ => a end.
Definition text (e : Element) : option string :=
  match e with mkElement _ _ t _ => t end.
Definition children (e : Element) : list Element :=
  match e with mkElement _ _ _ c => c end.

(** [elem.get(key)], [elem.findall(tag)] and [elem.find(tag)]. *)
Definition get (e : Element) (key : string) : option string :=
  dict_get (attrib e) key.
Definition findall (e : Element) (path : string) : list Element :=
  filter (λ c, tag c = path) (children e).
Definition find (e : Element) (path : string) : option Element :=
  head (findall e path).

(** The two built-ins of [str] that the parser calls: [s.strip()] and
    [int(s)], the latter with [None] for [ValueError]. *)
Class StrBuiltins : Type := {
  str_strip : string → string;
  int_of_str : string → option Z
}.

(** [tag.split('}', 1)[1]] when ['}' in tag]. *)
Fixpoint after_brace (s : string) : option string :=
  match s with
  | EmptyString => None
  | String c s' => if decide (c = "}"%char) then Some s' else after_brace s'
  end.

Fixpoint strip_namespace (e : Element) : Element :=
  match e with
  | mkElement t a x cs =>
      mkElement (default t (after_brace t)) a x (strip_namespace <$> cs)
  end.

(** [a or b] on values of type [Optional[str]]. *)
Definition str_or (a b : option string) : option string :=
  match a with
  | Some s => if decide (s = "") then b else a
  | None => b
  end.

Section Parser.
Context `{StrBuiltins}.

Fixpoint descend (elem : Element) (path_parts : list string) : option Element :=
  match path_parts with
  | [] => Some elem
  | part :: parts =>
      match find elem part with
      | None => None
      | Some e => descend e parts
      end
  end.

(** [elem.text] when it is neither [None] nor empty. *)
Definition truthy_text (elem : Element) : option string :=
  match text elem with
  | Some s => if decide (s = "") then None else Some s
  | None => None
  end.

Definition parseText (parent : Element) (path_parts : list string) :
    option string :=
  match descend parent path_parts with
  | None => None
  | Some elem =>
      let child_text :=
        match find elem "text" with
        | Some child => str_strip <$> truthy_text child
        | None => None
        end in
      match truthy_text elem with
      | Some s =>
          if decide (str_strip s = "") then child_text
          else Some (str_strip s)
      | None => child_text
      end
  end.

Definition parseInteger (s : option string) (default : Z) : Z :=
  match s with
  | None => default
  | Some s =>
      match int_of_str (str_strip s) with
      | Some n => n
      | None => default
      end
  end.

(** The text that gives the initial marking of a place, and the text
    that gives the weight of an arc. *)
Definition im_text (p : Element) : option string :=
  str_or (str_or (parseText p ["initialMarking"; "text"])
                 (parseText p ["initialMarking"]))
         (parseText p ["initial-marking"]).

Definition weight_text (a : Element) : option string :=
  str_or (str_or (parseText a ["inscription"; "text"])
                 (parseText a ["inscription"]))
         (parseText a ["inscription"; "value"]).

(** Body of the loop over the [<place>] elements. *)
Definition parse_place (p : Element) (places : list (string * Place.t)) :
    result (list (string * Place.t)) :=
  match get p "id" with
  | None => Raise PlaceNoId
  | Some pid =>
      if dict_mem pid places then Raise (DuplicatePlaceId pid)
      else
        let name := str_or (parseText p ["name"; "text"]) (parseText p ["name"]) in
        let initial_marking := parseInteger (im_text p) 0 in
        Ok (dict_set pid (Place.mk pid name initial_marking [] []) places)
  end.

(** Body of the loop over the [<transition>] elements. *)
Definition parse_transition (t : Element)
    (transitions : list (string * Transition.t)) :
    result (list (string * Transition.t)) :=
  match get t "id" with
  | None => Raise TransitionNoId
  | Some tid =>
      if dict_mem tid transitions then Raise (DuplicateTransitionId tid)
      else
        let name := str_or (parseText t ["name"; "text"]) (parseText t ["name"]) in
        Ok (dict_set tid (Transition.mk tid name [] []) transitions)
  end.

(** Body of the loop over the [<arc>] elements. *)
Definition parse_arc (a : Element) (arcs : list (string * Arc.t)) :
    result (list (string * Arc.t)) :=
  match get a "id" with
  | None => Raise ArcNoId
  | Some aid =>
      if dict_mem aid arcs then Raise (DuplicateArcId aid)
      else
        match get a "source", get a "target" with
        | Some source, Some target =>
            let weight := parseInteger (weight_text a) 1 in
            if decide (weight ≤ 0)%Z then Raise (NonPositiveWeight aid weight)
            else Ok (dict_set aid (Arc.mk aid source target weight) arcs)
        | _, _ => Raise (ArcNoSourceTarget aid)
        end
  end.

(** A [for] loop whose body may raise. *)
Fixpoint for_each {A S : Type} (body : A → S → result S) (l : list A) (s : S) :
    result S :=
  match l with
  | [] => Ok s
  | x :: l' => s' ← body x s; for_each body l' s'
  end.
End Parser.

Definition add_outgoing_place (aid : string) (p : Place.t) : Place.t :=
  Place.mk (Place.id p) (Place.name p) (Place.initial_marking p)
           (Place.incoming p) (Place.outgoing p ++ [aid]).
Definition add_incoming_place (aid : string) (p : Place.t) : Place.t :=
  Place.mk (Place.id p) (Place.name p) (Place.initial_marking p)
           (Place.incoming p ++ [aid]) (Place.outgoing p).
Definition add_outgoing_transition (aid : string) (t : Transition.t) :
    Transition.t :=
  Transition.mk (Transition.id t) (Transition.name t)
                (Transition.incoming t) (Transition.outgoing t ++ [aid]).
Definition add_incoming_transition (aid : string) (t : Transition.t) :
    Transition.t :=
  Transition.mk (Transition.id t) (Transition.name t)
                (Transition.incoming t ++ [aid]) (Transition.outgoing t).

Definition node_exists (places : list (string * Place.t))
    (transitions : list (string * Transition.t)) (node_id : string) : bool :=
  dict_mem node_id places || dict_mem node_id transitions.

(** Body of the loop that checks the endpoints of an arc and attaches the
    arc to its two nodes. *)
Definition link_arc (item : string * Arc.t)
    (nodes : list (string * Place.t) * list (string * Transition.t)) :
    result (list (string * Place.t) * list (string * Transition.t)) :=
  let '(aid, arc) := item in
  let '(places, transitions) := nodes in
  if negb (node_exists places transitions (Arc.source arc))
  then Raise (SourceNotFound aid (Arc.source arc))
  else if negb (node_exists places transitions (Arc.target arc))
  then Raise (TargetNotFound aid (Arc.target arc))
  else
    let '(places, transitions) :=
      if dict_mem (Arc.source arc) places
      then (dict_update (Arc.source arc) (add_outgoing_place aid) places,
            transitions)
      else (places,
            dict_update (Arc.source arc) (add_outgoing_transition aid) transitions)
    in
    Ok (if dict_mem (Arc.target arc) places
        then (dict_update (Arc.target arc) (add_incoming_place aid) places,
              transitions)
        else (places,
              dict_update (Arc.target arc) (add_incoming_transition aid)
                          transitions)).

Definition place_isolated (p : Place.t) : Prop :=
  Place.incoming p = [] ∧ Place.outgoing p = [].
Definition transition_isolated (t : Transition.t) : Prop :=
  Transition.incoming t = [] ∧ Transition.outgoing t = [].

Definition isolated_nodes (places : list (string * Place.t))
    (transitions : list (string * Transition.t)) : list (string * string) :=
  ((λ it, ("place", it.1)) <$> filter (λ it, place_isolated it.2) places)
  ++ ((λ it, ("transition", it.1))
        <$> filter (λ it, transition_isolated it.2) transitions).

Definition bad_markings (places : list (string * Place.t)) :
    list (string * Z) :=
  (λ it, (it.1, Place.initial_marking it.2))
    <$> filter (λ it, Place.initial_marking it.2 ≠ 0%Z
                      ∧ Place.initial_marking it.2 ≠ 1%Z) places.

Definition heavy_arcs (arcs : list (string * Arc.t)) : list string :=
  fst <$> filter (λ it, Arc.weight it.2 ≠ 1%Z) arcs.

(** The check for isolated nodes. *)
Definition check_isolated (places : list (string * Place.t))
    (transitions : list (string * Transition.t)) : result unit :=
  match isolated_nodes places transitions with
  | [] => Ok ()
  | nodes => Raise (IsolatedNodes nodes)
  end.

(** The two checks made when [require_1safe] is set. *)
Definition check_1safe (places : list (string * Place.t))
    (arcs : list (string * Arc.t)) : result unit :=
  match bad_markings places with
  | [] =>
      match heavy_arcs arcs with
      | [] => Ok ()
      | heavy => Raise (HeavyArcs heavy)
      end
  | bad => Raise (NonBinaryMarkings bad)
  end.

(** The first [<net>] child of the root, looked up a second time with
    [find] when the loop over [findall] found none. *)
Definition find_net (root : Element) : option Element :=
  match head (findall root "net") with
  | Some child => Some child
  | None => find root "net"
  end.

Section ParsePNML.
Context `{StrBuiltins}.

(** The first part of [parsePNML]: the net element is located, places,
    transitions and arcs are collected, and the arcs are attached to
    their nodes. *)
Definition build_net (root : Element) : result PetriNet.t :=
  let root := strip_namespace root in
  match find_net root with
  | None => Raise NoNetElement
  | Some net_elem =>
      let net_id := get net_elem "id" in
      places ← for_each parse_place (findall net_elem "place") [];
      transitions ← for_each parse_transition (findall net_elem "transition") [];
      arcs ← for_each parse_arc (findall net_elem "arc") [];
      nodes ← for_each link_arc arcs (places, transitions);
      Ok (PetriNet.mk net_id nodes.1 nodes.2 arcs)
  end.

Definition parsePNML (root : Element) (require_1safe : bool) :
    result PetriNet.t :=
  net ← build_net root;
  _ ← check_isolated (PetriNet.places net) (PetriNet.transitions net);
  _ ← (if require_1safe
       then check_1safe (PetriNet.places net) (PetriNet.arcs net)
       else Ok ());
  Ok net.
End ParsePNML.

(** A model of the two built-ins on ASCII text: surrounding white space is
    removed, and a decimal literal is an optional sign followed by
    digits. *)
Fixpoint lstrip (s : string) : string :=
  match s with
  | String c s' => if Ascii.is_space c then lstrip s' else s
  | EmptyString => EmptyString
  end.

Fixpoint digits_value (s : string) (acc : Z) : option Z :=
  match s with
  | EmptyString => Some acc
  | String c s' =>
      match Ascii.is_nat c with
      | Some d => digits_value s' (10 * acc + Z.of_nat d)%Z
      | None => None
      end
  end.

Definition decimal_of_str (s : string) : option Z :=
  match s with
  | EmptyString => None
  | String "-"%char (String c s') => Z.opp <$> digits_value (String c s') 0
  | String "+"%char (String c s') => digits_value (String c s') 0
  | _ => digits_value s 0
  end.

Global Instance ascii_builtins : StrBuiltins := {|
  str_strip s := String.rev (lstrip (String.rev (lstrip s)));
  int_of_str := decimal_of_str
|}.

(** A marking is a [frozenset] of place ids. *)
Abbreviation marking := (gset string).

(** ** compute_reachable_markings *)

(** The two inner loops over [t.incoming] and [t.outgoing]: [endpoint] is
    [Arc.source] for the preset and [Arc.target] for the postset. *)
Fixpoint add_endpoints (net : PetriNet.t) (endpoint : Arc.t → string)
    (aids : list string) (acc : marking) : result marking :=
  match aids with
  | [] => Ok acc
  | aid :: aids' =>
      arc ← dict_getitem (PetriNet.arcs net) aid;
      if dict_mem (endpoint arc) (PetriNet.places net)
      then add_endpoints net endpoint aids' (acc ∪ {[endpoint arc]})
      else add_endpoints net endpoint aids' acc
  end.

(** The loop that fills the dictionaries [pre] and [post]. *)
Fixpoint precompute (net : PetriNet.t) (items : list (string * Transition.t))
    (pre post : gmap string marking) :
    result (gmap string marking * gmap string marking) :=
  match items with
  | [] => Ok (pre, post)
  | (tid, t) :: items' =>
      P ← add_endpoints net Arc.source (Transition.incoming t) ∅;
      Q ← add_endpoints net Arc.target (Transition.outgoing t) ∅;
      precompute net items' (<[tid := P]> pre) (<[tid := Q]> post)
  end.

Definition initial_marking_of (net : PetriNet.t) : marking :=
  list_to_set
    (fst <$> filter (λ it, (0 <? Place.initial_marking it.2)%Z = true)
                    (PetriNet.places net)).

(** [sorted] on a list of [str]: ascending lexicographic order. *)
Definition sorted (l : list string) : list string := merge_sort String.le l.

Definition getitem (d : gmap string marking) (k : string) : result marking :=
  match d !! k with
  | Some v => Ok v
  | None => Raise (KeyError k)
  end.

Record state : Type := mkState {
  visited : gset marking;
  container : list marking;
  reachable_markings : list marking
}.

Section Explore.
Variables pre post : gmap string marking.

(** [all(p in M for p in pre[tid])] *)
Definition all_in (M P : marking) : bool :=
  bool_decide (set_Forall (λ p, p ∈ M) P).

(** The body of the loop over the transitions, up to [new_marking]:
    [None] when [tid] is not enabled at [M]. *)
Definition successor (M : marking) (tid : string) : result (option marking) :=
  P ← getitem pre tid;
  if all_in M P
  then Q ← getitem post tid; Ok (Some ((M ∖ P) ∪ Q))
  else Ok None.

(** [for tid in sorted(...)]: the successors that are not in [visited]
    are appended to the container. *)
Fixpoint expand (visited : gset marking) (M : marking) (tids : list string)
    (container : list marking) : result (list marking) :=
  match tids with
  | [] => Ok container
  | tid :: tids' =>
      s ← successor M tid;
      match s with
      | Some new_marking =>
          if decide (new_marking ∈ visited)
          then expand visited M tids' container
          else expand visited M tids' (container ++ [new_marking])
      | None => expand visited M tids' container
      end
  end.

(** [container.pop()] when [dfs], [container.pop(0)] otherwise. *)
Definition pop (dfs : bool) (container : list marking) :
    option (marking * list marking) :=
  if dfs
  then match last container with
       | Some M => Some (M, removelast container)
       | None => None
       end
  else match container with
       | M :: rest => Some (M, rest)
       | [] => None
       end.

(** The [while container] loop.  [None] is returned only when [fuel]
    iterations were not enough to empty the container. *)
Fixpoint explore (fuel : nat) (dfs : bool) (tids : list string) (st : state) :
    option (result (list marking)) :=
  match fuel with
  | 0 => None
  | S fuel' =>
      match pop dfs (container st) with
      | None => Some (Ok (reachable_markings st))
      | Some (M, rest) =>
          if decide (M ∈ visited st)
          then explore fuel' dfs tids
                 (mkState (visited st) rest (reachable_markings st))
          else
            let visited' := visited st ∪ {[M]} in
            match expand visited' M tids rest with
            | Raise e => Some (Raise e)
            | Ok container' =>
                explore fuel' dfs tids
                  (mkState visited' container' (reachable_markings st ++ [M]))
            end
      end
  end.
End Explore.

(** Number of iterations after which the container is certainly empty:
    every marking is a set of place ids, a marking is expanded at most once
    and an expansion pushes at most one marking per transition. *)
Definition enough_fuel (net : PetriNet.t) : nat :=
  2 ^ length (PetriNet.places net) * S (length (PetriNet.transitions net)) + 2.

Definition compute_reachable_markings_fuel (fuel : nat) (net : PetriNet.t)
    (dfs : bool) : option (result (list marking)) :=
  match precompute net (PetriNet.transitions net) ∅ ∅ with
  | Raise e => Some (Raise e)
  | Ok (pre, post) =>
      let M0 := initial_marking_of net in
      explore pre post fuel dfs (sorted (dict_keys (PetriNet.transitions net)))
        (mkState ∅ [M0] [])
  end.

Definition compute_reachable_markings (net : PetriNet.t) (dfs : bool) :
    option (result (list marking)) :=
  compute_reachable_markings_fuel (enough_fuel net) net dfs.
(** ** The marking graph and the loop invariant *)

(** One firing step: some transition of [tids] is enabled at [M] and
    produces [N]. *)
Definition fires (pre post : gmap string marking) (tids : list string)
    (M N : marking) : Prop :=
  ∃ tid, tid ∈ tids ∧ successor pre post M tid = Ok (Some N).

Definition reachable (pre post : gmap string marking) (tids : list string)
    (M0 : marking) : marking → Prop :=
  rtc (fires pre post tids) M0.

Record explore_inv (pre post : gmap string marking) (tids : list string)
    (M0 : marking) (st : state) : Prop := {
  inv_nodup : NoDup (reachable_markings st);
  inv_result : ∀ M, M ∈ reachable_markings st ↔ M ∈ visited st;
  inv_reach : ∀ M, M ∈ visited st ∨ M ∈ container st →
                   reachable pre post tids M0 M;
  inv_init : M0 ∈ visited st ∨ M0 ∈ container st;
  inv_closed : ∀ M N, M ∈ visited st → fires pre post tids M N →
                      N ∈ visited st ∨ N ∈ container st
}.

(** The quantity that decreases at every iteration of the loop, for
    markings over the place ids [U]. *)
Definition potential (tids : list string) (U : marking) (st : state) : nat :=
  (2 ^ size U - size (visited st)) * S (length tids) + length (container st).

Definition place_ids (net : PetriNet.t) : marking :=
  list_to_set (dict_keys (PetriNet.places net)).

(** Every arc id listed by a transition is a key of [arcs]: the part of
    the net's consistency that the explorer relies on. *)
Definition arcs_resolve (net : PetriNet.t) : Prop :=
  ∀ tid t aid, (tid, t) ∈ PetriNet.transitions net →
    aid ∈ Transition.incoming t ++ Transition.outgoing t →
    is_Some (dict_get (PetriNet.arcs net) aid).

(** ** The firing rule and the discovery steps, as the specification has them *)

(** [isEnabled(M, t)]: the preset of [t] is included in [M]. *)
Definition isEnabled (pre : gmap string marking) (M : marking) (tid : string) :
    bool :=
  match pre !! tid with
  | Some P => bool_decide (P ⊆ M)
  | None => false
  end.

(** [fire(M, t)]: [(M ∖ preset(t)) ∪ postset(t)]. *)
Definition fire (pre post : gmap string marking) (M : marking) (tid : string) :
    marking :=
  (M ∖ default ∅ (pre !! tid)) ∪ default ∅ (post !! tid).

(** The markings that are pushed when [M] is processed: the transitions
    [ids] are taken in the order of the list, each enabled one is fired,
    and the successor is pushed unless it is visited. *)
Definition pushed (pre post : gmap string marking) (ids : list string)
    (visited : gset marking) (M : marking) : list marking :=
  filter (λ N, N ∉ visited)
         (fire pre post M <$> filter (λ tid, isEnabled pre M tid = true) ids).

(** The frontier is a queue in breadth-first mode and a stack in
    depth-first mode: [M] is taken from the front, or from the end. *)
Definition popped (dfs : bool) (frontier : list marking) (M : marking)
    (rest : list marking) : Prop :=
  if dfs then frontier = rest ++ [M] else frontier = M :: rest.

(** One step of the discovery: the popped marking is discarded when it is
    visited; otherwise it is appended to the result and its successors are
    pushed. *)
Inductive discovery_step (pre post : gmap string marking) (ids : list string)
    (dfs : bool) : state → state → Prop :=
  | step_discard v c r M rest :
      popped dfs c M rest → M ∈ v →
      discovery_step pre post ids dfs (mkState v c r) (mkState v rest r)
  | step_append v c r M rest :
      popped dfs c M rest → M ∉ v →
      discovery_step pre post ids dfs (mkState v c r)
        (mkState (v ∪ {[M]}) (rest ++ pushed pre post ids (v ∪ {[M]}) M)
                 (r ++ [M])).

(** ** Notions used to state the properties of the parser *)

(** The errors raised while the net is built, before any validation of the
    whole net. *)
Definition structural_error (e : Error) : Prop :=
  match e with
  | NoNetElement | PlaceNoId | DuplicatePlaceId _ | TransitionNoId
  | DuplicateTransitionId _ | ArcNoId | DuplicateArcId _
  | ArcNoSourceTarget _ | NonPositiveWeight _ _ | SourceNotFound _ _
  | TargetNotFound _ _ => True
  | IsolatedNodes _ | NonBinaryMarkings _ | HeavyArcs _ | KeyError _ => False
  end.

(** Every arc listed by a transition is one of the arcs [known], ends (for
    [incoming]) or starts (for [outgoing]) at that transition, and the id
    of the transition is not the id of a place. *)
Definition transitions_linked (known : list (string * Arc.t))
    (places : list (string * Place.t))
    (transitions : list (string * Transition.t)) : Prop :=
  ∀ tid t, (tid, t) ∈ transitions →
    (∀ aid, aid ∈ Transition.incoming t →
       ∃ arc, (aid, arc) ∈ known ∧ Arc.target arc = tid ∧
              dict_mem tid places = false) ∧
    (∀ aid, aid ∈ Transition.outgoing t →
       ∃ arc, (aid, arc) ∈ known ∧ Arc.source arc = tid ∧
              dict_mem tid places = false).

(** Every value of the dictionary is stored under its own id. *)
Definition keyed {V : Type} (id : V → string) (d : list (string * V)) : Prop :=
  ∀ k v, (k, v) ∈ d → id v = k.

(** The arc ids that the nodes of a net list as outgoing, and those
    they list as incoming, places first. *)
Definition all_outgoing (places : list (string * Place.t))
    (transitions : list (string * Transition.t)) : list string :=
  concat (Place.outgoing <$> places.*2)
  ++ concat (Transition.outgoing <$> transitions.*2).

Definition all_incoming (places : list (string * Place.t))
    (transitions : list (string * Transition.t)) : list string :=
  concat (Place.incoming <$> places.*2)
  ++ concat (Transition.incoming <$> transitions.*2).

(** The outgoing and the incoming list of the node with id [k]; as in the
    linking loop, a place is looked for first. *)
Definition node_outgoing (places : list (string * Place.t))
    (transitions : list (string * Transition.t)) (k : string) :
    option (list string) :=
  match dict_get places k with
  | Some p => Some (Place.outgoing p)
  | None => Transition.outgoing <$> dict_get transitions k
  end.

Definition node_incoming (places : list (string * Place.t))
    (transitions : list (string * Transition.t)) (k : string) :
    option (list string) :=
  match dict_get places k with
  | Some p => Some (Place.incoming p)
  | None => Transition.incoming <$> dict_get transitions k
  end.

(** The lists of every node only grew from the first pair of
    dictionaries to the second. *)
Definition lists_grow
    (s1 s2 : list (string * Place.t) * list (string * Transition.t)) : Prop :=
  ∀ k,
    (∀ l, node_outgoing s1.1 s1.2 k = Some l →
          ∃ l', node_outgoing s2.1 s2.2 k = Some l' ∧ l ⊆ l') ∧
    (∀ l, node_incoming s1.1 s1.2 k = Some l →
          ∃ l', node_incoming s2.1 s2.2 k = Some l' ∧ l ⊆ l').

(** Every arc of [known] is listed as outgoing by its source node and as
    incoming by its target node. *)
Definition arcs_attached (known : list (string * Arc.t))
    (places : list (string * Place.t))
    (transitions : list (string * Transition.t)) : Prop :=
  ∀ aid arc, (aid, arc) ∈ known →
    (∃ l, node_outgoing places transitions (Arc.source arc) = Some l ∧ aid ∈ l) ∧
    (∃ l, node_incoming places transitions (Arc.target arc) = Some l ∧ aid ∈ l).

(** The integer that a text reads as: none when the text is absent or is
    not a number. *)
Definition numeric_value `{StrBuiltins} (t : option string) : option Z :=
  t ≫= λ s, int_of_str (str_strip s).

(** An arc element that names a source and a target and whose inscription
    does not read as an integer that is at most 0. *)
Definition arc_accepted `{StrBuiltins} (a : Element) : Prop :=
  is_Some (get a "source") ∧ is_Some (get a "target") ∧
  ∀ w, numeric_value (weight_text a) = Some w → (0 < w)%Z.

(** Every element has an id attribute, and no id occurs twice. *)
Definition ids_distinct (elems : list Element) : Prop :=
  ∃ ids, (λ e, get e "id") <$> elems = Some <$> ids ∧ NoDup ids.

(** ** Example documents *)

Definition xml_text (t s : string) : Element := mkElement t [] (Some s) [].

Definition xml_place (id : string) (marking : option string) : Element :=
  mkElement "place" [("id", id)] None
    match marking with
    | Some s => [mkElement "initialMarking" [] None [xml_text "text" s]]
    | None => []
    end.

Definition xml_transition (id : string) : Element :=
  mkElement "transition" [("id", id)] None [].

Definition xml_arc (id source target : string) (weight : option string) :
    Element :=
  mkElement "arc" [("id", id); ("source", source); ("target", target)] None
    match weight with
    | Some s => [mkElement "inscription" [] None [xml_text "text" s]]
    | None => []
    end.

Definition xml_pnml (nodes : list Element) : Element :=
  mkElement "{http://www.pnml.org/version-2009/grammar/pnml}pnml" [] None
    [mkElement "{http://www.pnml.org/version-2009/grammar/pnml}net"
       [("id", "net1")] None nodes].

(** One token that moves from [p1] to [p2]. *)
Definition move_doc : Element :=
  xml_pnml [xml_place "p1" (Some " 1 "); xml_place "p2" None;
            xml_transition "t1";
            xml_arc "a1" "p1" "t1" None; xml_arc "a2" "t1" "p2" (Some "1")].

(** [move_doc] with a place [p3] that no arc touches. *)
Definition isolated_doc : Element :=
  xml_pnml [xml_place "p1" (Some "1"); xml_place "p2" None;
            xml_place "p3" None; xml_transition "t1";
            xml_arc "a1" "p1" "t1" None; xml_arc "a2" "t1" "p2" None].

(** Two tokens on [p1] and an arc of weight 3. *)
Definition unsafe_doc : Element :=
  xml_pnml [xml_place "p1" (Some "2"); xml_place "p2" None;
            xml_transition "t1";
            xml_arc "a1" "p1" "t1" (Some "3"); xml_arc "a2" "t1" "p2" None].

(** The id [x] names a place and a transition. *)
Definition shared_id_doc : Element :=
  xml_pnml [xml_place "x" (Some "1"); xml_transition "x";
            xml_arc "a1" "x" "x" None].

(** An arc of weight 0, and an initial marking that is not a number. *)
Definition zero_weight_doc : Element :=
  xml_pnml [xml_place "p1" (Some "one"); xml_transition "t1";
            xml_arc "a1" "p1" "t1" (Some "0")].

(** [move_doc] with an arc between the two places and a second
    transition joined to the first by an arc. *)
Definition odd_arcs_doc : Element :=
  xml_pnml [xml_place "p1" (Some "1"); xml_place "p2" None;
            xml_transition "t1"; xml_transition "t2";
            xml_arc "a1" "p1" "t1" None; xml_arc "a2" "t1" "p2" None;
            xml_arc "a3" "p1" "p2" None; xml_arc "a4" "t1" "t2" None].

(** ** Example nets *)

(** Two places and two transitions in a cycle: the token alternates
    between [p1] and [p2]. *)
Definition cycle_net : PetriNet.t :=
  PetriNet.mk (Some "cycle")
    [("p1", Place.mk "p1" None 1 ["a4"] ["a1"]);
     ("p2", Place.mk "p2" None 0 ["a2"] ["a3"])]
    [("t1", Transition.mk "t1" None ["a1"] ["a2"]);
     ("t2", Transition.mk "t2" None ["a3"] ["a4"])]
    [("a1", Arc.mk "a1" "p1" "t1" 1); ("a2", Arc.mk "a2" "t1" "p2" 1);
     ("a3", Arc.mk "a3" "p2" "t2" 1); ("a4", Arc.mk "a4" "t2" "p1" 1)].

(** The presets and postsets of [cycle_net]. *)
Definition cycle_pre : gmap string marking :=
  {[ "t1" := {[ "p1" ]}; "t2" := {[ "p2" ]} ]}.
Definition cycle_post : gmap string marking :=
  {[ "t1" := {[ "p2" ]}; "t2" := {[ "p1" ]} ]}.

(** Two transitions that both move the token from [p0] to [p1]. *)
Definition fork_net : PetriNet.t :=
  PetriNet.mk (Some "fork")
    [("p0", Place.mk "p0" None 1 [] ["a1"; "a3"]);
     ("p1", Place.mk "p1" None 0 ["a2"; "a4"] [])]
    [("t1", Transition.mk "t1" None ["a1"] ["a2"]);
     ("t2", Transition.mk "t2" None ["a3"] ["a4"])]
    [("a1", Arc.mk "a1" "p0" "t1" 1); ("a2", Arc.mk "a2" "t1" "p1" 1);
     ("a3", Arc.mk "a3" "p0" "t2" 1); ("a4", Arc.mk "a4" "t2" "p1" 1)].

(** Two places joined by an arc, and no transition. *)
Definition still_net : PetriNet.t :=
  PetriNet.mk (Some "still")
    [("p1", Place.mk "p1" None 1 [] ["a1"]);
     ("p2", Place.mk "p2" None 0 ["a1"] [])]
    []
    [("a1", Arc.mk "a1" "p1" "p2" 1)].

(** [cycle_net] whose transition [t2] lists an arc [a9] that the net does
    not have. *)
Definition dangling_net : PetriNet.t :=
  PetriNet.mk (Some "dangling")
    [("p1", Place.mk "p1" None 1 ["a4"] ["a1"]);
     ("p2", Place.mk "p2" None 0 ["a2"] ["a3"])]
    [("t1", Transition.mk "t1" None ["a1"] ["a2"]);
     ("t2", Transition.mk "t2" None ["a3"; "a9"] ["a4"])]
    [("a1", Arc.mk "a1" "p1" "t1" 1); ("a2", Arc.mk "a2" "t1" "p2" 1);
     ("a3", Arc.mk "a3" "p2" "t2" 1); ("a4", Arc.mk "a4" "t2" "p1" 1)].

(** A transition that keeps its input place [p1] marked and marks [p2]. *)
Definition loop_net : PetriNet.t :=
  PetriNet.mk (Some "loop")
    [("p1", Place.mk "p1" None 1 ["a2"] ["a1"]);
     ("p2", Place.mk "p2" None 0 ["a3"] [])]
    [("t1", Transition.mk "t1" None ["a1"] ["a2"; "a3"])]
    [("a1", Arc.mk "a1" "p1" "t1" 1); ("a2", Arc.mk "a2" "t1" "p1" 1);
     ("a3", Arc.mk "a3" "t1" "p2" 1)].

Definition loop_pre : gmap string marking := {[ "t1" := {[ "p1" ]} ]}.
Definition loop_post : gmap string marking := {[ "t1" := {[ "p1"; "p2" ]} ]}.

(** The net that [parsePNML] builds from [move_doc]. *)
Definition move_net : PetriNet.t :=
  PetriNet.mk (Some "net1")
    [("p1", Place.mk "p1" None 1 [] ["a1"]);
     ("p2", Place.mk "p2" None 0 ["a2"] [])]
    [("t1", Transition.mk "t1" None ["a1"] ["a2"])]
    [("a1", Arc.mk "a1" "p1" "t1" 1); ("a2", Arc.mk "a2" "t1" "p2" 1)].

(** * Properties *)

(** ** Counting sets of place ids *)

Lemma size_list_to_set_le `{Countable A} (l : list A) :
  size (list_to_set l : gset A) ≤ length l.
Proof.
  induction l as [|a l IH].
  - rewrite list_to_set_nil, size_empty. done.
  - rewrite list_to_set_cons, size_union_alt, size_singleton. simpl.
    assert (size (list_to_set l ∖ {[a]} : gset A)
            ≤ size (list_to_set l : gset A)) as Hle.
    { apply subseteq_size. set_solver. }
    lia.
Qed.

Lemma size_set_map_le (f : marking → marking) (X : gset marking) :
  size (set_map f X : gset marking) ≤ size X.
Proof.
  unfold set_map. etrans; [apply size_list_to_set_le|].
  by rewrite length_fmap.
Qed.

Lemma size_union_le (X Y : gset marking) : size (X ∪ Y) ≤ size X + size Y.
Proof.
  rewrite size_union_alt.
  assert (size (Y ∖ X) ≤ size Y) as Hle.
  { apply subseteq_size. set_solver. }
  lia.
Qed.

(** A family of subsets of [U] has at most [2 ^ size U] members. *)
Lemma subsets_bound (U : marking) :
  ∀ X : gset marking, (∀ M, M ∈ X → M ⊆ U) → size X ≤ 2 ^ size U.
Proof.
  induction U as [|x U Hx IH] using set_ind_L; intros X HX.
  - rewrite size_empty. simpl.
    assert (X ⊆ {[ ∅ ]}) as Hsub.
    { intros M HM. apply HX in HM. apply elem_of_singleton.
      apply set_eq. intros y. split; [apply HM|]. by intros ?%not_elem_of_empty. }
    apply subseteq_size in Hsub. by rewrite size_singleton in Hsub.
  - rewrite size_union, size_singleton by set_solver.
    set (Y := set_map (λ M : marking, M ∖ {[x]}) X : gset marking).
    assert (size Y ≤ 2 ^ size U) as HY.
    { apply IH. intros M HM. apply elem_of_map in HM as (M' & -> & HM').
      apply HX in HM'. set_solver. }
    assert (X ⊆ Y ∪ set_map (λ M : marking, {[x]} ∪ M) Y) as Hsub.
    { intros M HM. destruct (decide (x ∈ M)) as [Hin|Hout].
      - apply elem_of_union_r, elem_of_map. exists (M ∖ {[x]}). split.
        + apply set_eq. intros y. destruct (decide (y = x)); set_solver.
        + apply elem_of_map. eauto.
      - apply elem_of_union_l, elem_of_map. exists M. split; [set_solver|done]. }
    apply subseteq_size in Hsub.
    pose proof (size_union_le Y (set_map (λ M : marking, {[x]} ∪ M) Y)).
    pose proof (size_set_map_le (λ M : marking, {[x]} ∪ M) Y).
    change (2 ^ (1 + size U)) with (2 * 2 ^ size U). lia.
Qed.

(** ** The firing rule *)

Lemma all_in_subseteq (M P : marking) : all_in M P = true ↔ P ⊆ M.
Proof. unfold all_in. by rewrite bool_decide_eq_true. Qed.

Section Firing.
Variables pre post : gmap string marking.

Lemma successor_Some (M N : marking) (tid : string) :
  successor pre post M tid = Ok (Some N) ↔
  ∃ P Q, pre !! tid = Some P ∧ post !! tid = Some Q ∧ P ⊆ M ∧ N = (M ∖ P) ∪ Q.
Proof.
  unfold successor, getitem. split.
  - destruct (pre !! tid) as [P|] eqn:HP; simpl; [|done].
    destruct (all_in M P) eqn:Hall; [|done].
    destruct (post !! tid) as [Q|] eqn:HQ; simpl; [|done].
    intros [= <-]. exists P, Q. by rewrite <-all_in_subseteq.
  - intros (P & Q & -> & -> & Hsub & ->). simpl.
    apply all_in_subseteq in Hsub. by rewrite Hsub.
Qed.

Lemma successor_None (M : marking) (tid : string) :
  successor pre post M tid = Ok None ↔ ∃ P, pre !! tid = Some P ∧ ¬ P ⊆ M.
Proof.
  unfold successor, getitem. split.
  - destruct (pre !! tid) as [P|] eqn:HP; simpl; [|done].
    destruct (all_in M P) eqn:Hall.
    + by destruct (post !! tid).
    + intros _. exists P. split; [done|]. rewrite <-all_in_subseteq. congruence.
  - intros (P & -> & Hsub). simpl. rewrite <-all_in_subseteq in Hsub.
    by destruct (all_in M P).
Qed.

Lemma successor_total (M : marking) (tid : string) :
  is_Some (pre !! tid) → is_Some (post !! tid) →
  ∃ o, successor pre post M tid = Ok o.
Proof.
  intros [P HP] [Q HQ]. unfold successor, getitem. rewrite HP, HQ. simpl.
  destruct (all_in M P); eauto.
Qed.

Lemma expand_spec (v : gset marking) (M : marking) (l : list string) :
  (∀ tid, tid ∈ l → is_Some (pre !! tid) ∧ is_Some (post !! tid)) →
  ∀ c, ∃ news,
    expand pre post v M l c = Ok (c ++ news) ∧
    length news ≤ length l ∧
    ∀ N, N ∈ news ↔
         (∃ tid, tid ∈ l ∧ successor pre post M tid = Ok (Some N)) ∧ N ∉ v.
Proof.
  induction l as [|tid l IH]; intros Htot c.
  - exists []. rewrite app_nil_r. split_and!; [done|done|].
    intros N. split; [by intros ?%elem_of_nil|].
    by intros ((tid & ?%elem_of_nil & _) & _).
  - destruct (successor_total M tid) as [o Ho];
      [apply Htot; left..|].
    assert (∀ tid', tid' ∈ l → is_Some (pre !! tid') ∧ is_Some (post !! tid'))
      as Htot' by (intros; apply Htot; by right).
    simpl. rewrite Ho. simpl. destruct o as [N'|].
    + destruct (decide (N' ∈ v)) as [Hin|Hout].
      * destruct (IH Htot' c) as (news & -> & Hlen & Hnews).
        exists news. split_and!; [done|simpl; lia|].
        intros N. rewrite Hnews. split.
        -- intros ((t & ? & ?) & ?). split; [|done]. exists t. split; [by right|done].
        -- intros ((t & [->|Ht]%elem_of_cons & Hs) & HN).
           ++ rewrite Ho in Hs. by injection Hs as ->.
           ++ eauto.
      * destruct (IH Htot' (c ++ [N'])) as (news & -> & Hlen & Hnews).
        exists (N' :: news). split_and!.
        -- by rewrite <-app_assoc.
        -- simpl; lia.
        -- intros N. rewrite elem_of_cons, Hnews. split.
           ++ intros [->|((t & ? & ?) & ?)].
              ** split; [|done]. exists tid. split; [by left|done].
              ** split; [|done]. exists t. split; [by right|done].
           ++ intros ((t & [->|Ht]%elem_of_cons & Hs) & HN).
              ** rewrite Ho in Hs. injection Hs as ->. by left.
              ** right. eauto.
    + destruct (IH Htot' c) as (news & -> & Hlen & Hnews).
      exists news. split_and!; [done|simpl; lia|].
      intros N. rewrite Hnews. split.
      * intros ((t & ? & ?) & ?). split; [|done]. exists t. split; [by right|done].
      * intros ((t & [->|Ht]%elem_of_cons & Hs) & HN).
        -- by rewrite Ho in Hs.
        -- eauto.
Qed.

Lemma pop_None (dfs : bool) (c : list marking) : pop dfs c = None ↔ c = [].
Proof.
  unfold pop. destruct dfs.
  - destruct (last c) eqn:Hl; [|by rewrite <-last_None].
    split; [done|]. intros ->. done.
  - by destruct c.
Qed.

Lemma pop_bfs (c rest : list marking) (M : marking) :
  pop false c = Some (M, rest) ↔ c = M :: rest.
Proof. unfold pop. destruct c; naive_solver. Qed.

Lemma pop_dfs (c rest : list marking) (M : marking) :
  pop true c = Some (M, rest) ↔ c = rest ++ [M].
Proof.
  unfold pop. split.
  - destruct (last c) as [M'|] eqn:Hl; [|done].
    apply last_Some in Hl as [l' ->]. rewrite removelast_last. by intros [= <- <-].
  - intros ->. by rewrite last_snoc, removelast_last.
Qed.

Lemma pop_Permutation (dfs : bool) (c rest : list marking) (M : marking) :
  pop dfs c = Some (M, rest) → c ≡ₚ M :: rest.
Proof.
  destruct dfs.
  - intros ->%pop_dfs. by rewrite Permutation_app_comm.
  - by intros ->%pop_bfs.
Qed.
End Firing.

(** ** The exploration loop *)

Section Exploration.
Variables (pre post : gmap string marking) (tids : list string).
Variables (M0 U : marking).

Local Abbreviation fires := (fires pre post tids).
Local Abbreviation reachable := (reachable pre post tids M0).
Local Abbreviation explore_inv := (explore_inv pre post tids M0).
Local Abbreviation potential := (potential tids U).

Hypothesis tids_total :
  ∀ tid, tid ∈ tids → is_Some (pre !! tid) ∧ is_Some (post !! tid).
Hypothesis M0_places : M0 ⊆ U.
Hypothesis post_places : ∀ tid Q, post !! tid = Some Q → Q ⊆ U.

Lemma fires_places (M N : marking) : M ⊆ U → fires M N → N ⊆ U.
Proof.
  intros HM (tid & _ & Hs).
  apply successor_Some in Hs as (P & Q & _ & HQ & _ & ->).
  apply post_places in HQ. clear -HM HQ. set_solver.
Qed.

Lemma reachable_places (M : marking) : reachable M → M ⊆ U.
Proof.
  revert M. apply (rtc_ind_r (λ M, M ⊆ U) M0); [done|].
  intros M N _ Hf HM. by eapply fires_places.
Qed.

Lemma explore_inv_init : explore_inv (mkState ∅ [M0] []).
Proof.
  split; simpl.
  - constructor.
  - intros M. split; [by intros ?%elem_of_nil|by intros ?%not_elem_of_empty].
  - intros M [?%not_elem_of_empty| ->%list_elem_of_singleton]; [done|].
    apply rtc_refl.
  - right. by left.
  - by intros M N ?%not_elem_of_empty.
Qed.

(** A popped marking that was already visited is dropped. *)
Lemma explore_inv_discard (st : state) (M : marking) (rest : list marking) :
  explore_inv st → container st ≡ₚ M :: rest → M ∈ visited st →
  explore_inv (mkState (visited st) rest (reachable_markings st)).
Proof.
  intros [Hnd Hres Hreach Hinit Hclosed] Hperm HM. split; simpl.
  - done.
  - done.
  - intros M' [?|?]; apply Hreach; [by left|right].
    rewrite Hperm. by right.
  - destruct Hinit as [?|Hin]; [by left|].
    rewrite Hperm in Hin. apply elem_of_cons in Hin as [->|?]; auto.
  - intros M' N HM' Hf. destruct (Hclosed M' N HM' Hf) as [?|Hin]; [by left|].
    rewrite Hperm in Hin. apply elem_of_cons in Hin as [->|?]; auto.
Qed.

(** A popped marking that is new is recorded and expanded. *)
Lemma explore_inv_expand (st : state) (M : marking) (rest news : list marking) :
  explore_inv st → container st ≡ₚ M :: rest → M ∉ visited st →
  (∀ N, N ∈ news ↔ fires M N ∧ N ∉ visited st ∪ {[M]}) →
  explore_inv (mkState (visited st ∪ {[M]}) (rest ++ news)
                       (reachable_markings st ++ [M])).
Proof.
  intros [Hnd Hres Hreach Hinit Hclosed] Hperm HM Hnews.
  assert (reachable M) as HrM.
  { apply Hreach. right. rewrite Hperm. by left. }
  split; simpl.
  - apply NoDup_app. split_and!; [done| |apply NoDup_singleton].
    intros M' HM' ->%list_elem_of_singleton. by apply HM, Hres.
  - intros M'.
    by rewrite elem_of_app, list_elem_of_singleton, Hres, elem_of_union,
      elem_of_singleton.
  - intros M' [[?| ->%elem_of_singleton]%elem_of_union|Hin].
    + apply Hreach. by left.
    + done.
    + apply elem_of_app in Hin as [?|Hin].
      * apply Hreach. right. rewrite Hperm. by right.
      * apply Hnews in Hin as [Hf _]. by eapply rtc_r.
  - destruct Hinit as [?|Hin]; [left; by apply elem_of_union_l|].
    rewrite Hperm in Hin. apply elem_of_cons in Hin as [->|?].
    + left. by apply elem_of_union_r, elem_of_singleton.
    + right. apply elem_of_app. by left.
  - intros M' N [HM'| ->%elem_of_singleton]%elem_of_union Hf.
    + destruct (Hclosed M' N HM' Hf) as [?|Hin];
        [left; by apply elem_of_union_l|].
      rewrite Hperm in Hin. apply elem_of_cons in Hin as [->|?].
      * left. by apply elem_of_union_r, elem_of_singleton.
      * right. apply elem_of_app. by left.
    + destruct (decide (N ∈ visited st ∪ {[M]})) as [?|Hout]; [by left|].
      right. apply elem_of_app. right. by apply Hnews.
Qed.

Lemma visited_bound (st : state) (M : marking) :
  explore_inv st → M ∈ container st → M ∉ visited st →
  S (size (visited st)) ≤ 2 ^ size U.
Proof.
  intros Hinv Hin Hout.
  assert (size (visited st ∪ {[M]}) ≤ 2 ^ size U) as Hle.
  { apply subsets_bound. intros M' [?| ->%elem_of_singleton]%elem_of_union;
      apply reachable_places, (inv_reach _ _ _ _ _ Hinv); auto. }
  rewrite size_union, size_singleton in Hle by (clear -Hout; set_solver). lia.
Qed.

(** With fuel above the potential the loop empties the container, never
    raises, and returns the reachable markings without repetition. *)
Lemma explore_correct (dfs : bool) (fuel : nat) :
  ∀ st, explore_inv st → potential st < fuel →
  ∃ ms, explore pre post fuel dfs tids st = Some (Ok ms) ∧
        NoDup ms ∧ ∀ M, M ∈ ms ↔ reachable M.
Proof.
  induction fuel as [|fuel IH]; intros st Hinv Hfuel; [lia|].
  simpl. destruct (pop dfs (container st)) as [[M rest]|] eqn:Hpop.
  - pose proof (pop_Permutation _ _ _ _ Hpop) as Hperm.
    assert (length (container st) = S (length rest)) as Hlen
      by (by rewrite Hperm).
    destruct (decide (M ∈ visited st)) as [Hin|Hout].
    + apply IH; [by apply explore_inv_discard with M|].
      unfold potential in *. simpl. lia.
    + destruct (expand_spec pre post (visited st ∪ {[M]}) M tids tids_total rest)
        as (news & -> & Hnl & Hnews).
      apply IH.
      * apply explore_inv_expand; [done..|]. intros N. by rewrite Hnews.
      * assert (S (size (visited st)) ≤ 2 ^ size U) as Hb.
        { apply visited_bound with M; [done| |done].
          rewrite Hperm. by left. }
        unfold potential in *. simpl.
        rewrite size_union, size_singleton, length_app
          by (clear -Hout; set_solver).
        nia.
  - apply pop_None in Hpop. destruct Hinv as [Hnd Hres Hreach Hinit Hclosed].
    exists (reachable_markings st). split_and!; [done..|].
    rewrite Hpop in *. intros M. rewrite Hres. split.
    + intros ?. apply Hreach. by left.
    + revert M. apply (rtc_ind_r (λ M, M ∈ visited st) M0).
      * by destruct Hinit as [?|?%elem_of_nil].
      * intros M' N _ Hf HM'.
        by destruct (Hclosed M' N HM' Hf) as [?|?%elem_of_nil].
Qed.
End Exploration.

(** ** Dictionaries: membership and lookup *)

Section DictFacts.
Context {V : Type}.
Implicit Types d : list (string * V).

Lemma dict_get_Some_elem_of d k v : dict_get d k = Some v → (k, v) ∈ d.
Proof.
  induction d as [|[k' v'] d IH]; simpl; [done|].
  destruct (decide (k' = k)) as [->|?].
  - intros [= ->]. by left.
  - intros ?. right. auto.
Qed.

Lemma dict_get_is_Some d k : is_Some (dict_get d k) ↔ k ∈ dict_keys d.
Proof.
  unfold dict_keys. induction d as [|[k' v'] d IH]; simpl.
  - split; [by intros [? ?]|by intros ?%elem_of_nil].
  - rewrite elem_of_cons. destruct (decide (k' = k)) as [->|?].
    + split; [by left|eauto].
    + rewrite IH. naive_solver.
Qed.

Lemma dict_mem_true d k : dict_mem k d = true ↔ k ∈ dict_keys d.
Proof. unfold dict_mem. by rewrite bool_decide_eq_true, dict_get_is_Some. Qed.

Lemma dict_mem_false d k : dict_mem k d = false ↔ k ∉ dict_keys d.
Proof. unfold dict_mem. by rewrite bool_decide_eq_false, dict_get_is_Some. Qed.

Lemma elem_of_dict_keys d k : k ∈ dict_keys d ↔ ∃ v, (k, v) ∈ d.
Proof.
  unfold dict_keys. rewrite list_elem_of_fmap. split.
  - intros ([k' v] & -> & ?). by exists v.
  - intros [v ?]. by exists (k, v).
Qed.
End DictFacts.

(** ** Presets and postsets *)

Lemma elem_of_place_ids (net : PetriNet.t) (p : string) :
  p ∈ place_ids net ↔ dict_mem p (PetriNet.places net) = true.
Proof. unfold place_ids. by rewrite elem_of_list_to_set, dict_mem_true. Qed.

(** What one of the inner loops adds to the set it fills. *)
Lemma add_endpoints_Ok net endpoint aids acc S :
  add_endpoints net endpoint aids acc = Ok S →
  ∀ p, p ∈ S ↔
       p ∈ acc ∨
       ∃ aid arc, aid ∈ aids ∧ dict_get (PetriNet.arcs net) aid = Some arc ∧
                  endpoint arc = p ∧ p ∈ place_ids net.
Proof.
  revert acc. induction aids as [|aid aids IH]; intros acc; simpl.
  - intros [= <-] p. split; [by left|].
    by intros [?|(? & ? & ?%elem_of_nil & _)].
  - unfold dict_getitem. destruct (dict_get (PetriNet.arcs net) aid) as [arc|] eqn:Ha;
      simpl; [|done].
    destruct (dict_mem (endpoint arc) (PetriNet.places net)) eqn:Hm;
      intros HS p; rewrite (IH _ HS).
    + rewrite elem_of_union, elem_of_singleton. split.
      * intros [[?| ->]|(a & arc' & ? & ? & ? & ?)].
        -- by left.
        -- right. exists aid, arc. split_and!; [by left|done..|].
           by apply elem_of_place_ids.
        -- right. exists a, arc'. split_and!; [by right|done..].
      * intros [?|(a & arc' & [->|?]%elem_of_cons & Hg & Hp & ?)].
        -- left. by left.
        -- rewrite Ha in Hg. injection Hg as <-. left. by right.
        -- right. by exists a, arc'.
    + split.
      * intros [?|(a & arc' & ? & ? & ? & ?)]; [by left|].
        right. exists a, arc'. split_and!; [by right|done..].
      * intros [?|(a & arc' & [->|?]%elem_of_cons & Hg & Hp & Hin)].
        -- by left.
        -- rewrite Ha in Hg. injection Hg as <-. subst p.
           apply elem_of_place_ids in Hin. congruence.
        -- right. by exists a, arc'.
Qed.

Lemma add_endpoints_places net endpoint aids S :
  add_endpoints net endpoint aids ∅ = Ok S → S ⊆ place_ids net.
Proof.
  intros HS p. rewrite (add_endpoints_Ok _ _ _ _ _ HS).
  intros [?%not_elem_of_empty|(? & ? & _ & _ & _ & ?)]; done.
Qed.

Lemma add_endpoints_Raise net endpoint aids acc e :
  add_endpoints net endpoint aids acc = Raise e →
  ∃ aid, aid ∈ aids ∧ dict_get (PetriNet.arcs net) aid = None ∧ e = KeyError aid.
Proof.
  revert acc. induction aids as [|aid aids IH]; intros acc; simpl; [done|].
  unfold dict_getitem. destruct (dict_get (PetriNet.arcs net) aid) as [arc|] eqn:Ha; simpl.
  - destruct (dict_mem _ _); intros (a & ? & ? & ?)%IH;
      exists a; (split_and!; [by right|done..]).
  - intros [= <-]. exists aid. split_and!; [by left|done..].
Qed.

(** What the outer loop leaves in [pre] and [post]. *)
Lemma precompute_Ok net items pre post pre' post' :
  precompute net items pre post = Ok (pre', post') →
  ∀ tid,
    (pre' !! tid = pre !! tid ∧ post' !! tid = post !! tid ∧ tid ∉ dict_keys items) ∨
    (∃ t P Q, (tid, t) ∈ items ∧
       add_endpoints net Arc.source (Transition.incoming t) ∅ = Ok P ∧
       add_endpoints net Arc.target (Transition.outgoing t) ∅ = Ok Q ∧
       pre' !! tid = Some P ∧ post' !! tid = Some Q).
Proof.
  revert pre post. induction items as [|[tid' t] items IH]; intros pre post; simpl.
  - intros [= <- <-] tid. left. split_and!; [done..|by intros ?%elem_of_nil].
  - destruct (add_endpoints net Arc.source _ ∅) as [P|] eqn:HP; simpl; [|done].
    destruct (add_endpoints net Arc.target _ ∅) as [Q|] eqn:HQ; simpl; [|done].
    intros Hrec tid. destruct (IH _ _ Hrec tid) as [(Hpre & Hpost & Hout)|Hin].
    + destruct (decide (tid' = tid)) as [->|Hne].
      * right. exists t, P, Q. rewrite Hpre, Hpost, !lookup_insert_eq.
        split_and!; [by left|done..].
      * left. rewrite Hpre, Hpost, !lookup_insert_ne by done.
        split_and!; [done..|]. unfold dict_keys in *. simpl.
        by intros [?|?]%elem_of_cons.
    + right. destruct Hin as (t' & P' & Q' & ? & ?). exists t', P', Q'.
      split; [by right|done].
Qed.

(** ** The explorer on a net *)

Lemma initial_marking_places (net : PetriNet.t) :
  initial_marking_of net ⊆ place_ids net.
Proof.
  unfold initial_marking_of, place_ids, dict_keys. intros p.
  rewrite !elem_of_list_to_set, !list_elem_of_fmap.
  intros (it & -> & Hin). apply list_elem_of_filter in Hin as [_ Hin].
  by exists it.
Qed.

Lemma size_place_ids (net : PetriNet.t) :
  size (place_ids net) ≤ length (PetriNet.places net).
Proof.
  unfold place_ids, dict_keys. etrans; [apply size_list_to_set_le|].
  by rewrite length_fmap.
Qed.

Lemma sorted_Permutation (l : list string) : sorted l ≡ₚ l.
Proof. apply merge_sort_Permutation. Qed.

Lemma elem_of_sorted (l : list string) (k : string) : k ∈ sorted l ↔ k ∈ l.
Proof. by rewrite sorted_Permutation. Qed.

Lemma precompute_total_keys net pre post :
  precompute net (PetriNet.transitions net) ∅ ∅ = Ok (pre, post) →
  ∀ tid, tid ∈ sorted (dict_keys (PetriNet.transitions net)) →
         is_Some (pre !! tid) ∧ is_Some (post !! tid).
Proof.
  intros Hpc tid Hin. rewrite elem_of_sorted in Hin.
  destruct (precompute_Ok _ _ _ _ _ _ Hpc tid)
    as [(_ & _ & Hout)|(t & P & Q & _ & _ & _ & -> & ->)]; [done|].
  split; eauto.
Qed.

Lemma precompute_post_places net pre post :
  precompute net (PetriNet.transitions net) ∅ ∅ = Ok (pre, post) →
  ∀ tid Q, post !! tid = Some Q → Q ⊆ place_ids net.
Proof.
  intros Hpc tid Q HQ.
  destruct (precompute_Ok _ _ _ _ _ _ Hpc tid)
    as [(_ & Hpost & _)|(t & P & Q' & _ & _ & HQ' & _ & Hpost)].
  - by rewrite HQ, lookup_empty in Hpost.
  - rewrite HQ in Hpost. injection Hpost as ->.
    by eapply add_endpoints_places.
Qed.

(** More fuel does not change a result that was already produced. *)
Lemma explore_fuel_mono pre post dfs tids (fuel fuel' : nat) :
  fuel ≤ fuel' →
  ∀ st r, explore pre post fuel dfs tids st = Some r →
          explore pre post fuel' dfs tids st = Some r.
Proof.
  revert fuel'. induction fuel as [|fuel IH]; intros fuel' Hle st r; [done|].
  destruct fuel' as [|fuel']; [lia|]. simpl.
  destruct (pop dfs (container st)) as [[M rest]|]; [|done].
  destruct (decide (M ∈ visited st)); [apply IH; lia|].
  destruct (expand pre post _ M tids rest); [apply IH; lia|done].
Qed.

Lemma enough_fuel_potential (net : PetriNet.t) :
  potential (sorted (dict_keys (PetriNet.transitions net))) (place_ids net)
            (mkState ∅ [initial_marking_of net] [])
  < enough_fuel net.
Proof.
  unfold potential, enough_fuel. cbn [visited container length].
  rewrite size_empty, Nat.sub_0_r, sorted_Permutation.
  unfold dict_keys. rewrite length_fmap.
  pose proof (size_place_ids net) as Hsz.
  apply (Nat.pow_le_mono_r 2) in Hsz; [|done].
  nia.
Qed.

(** With enough fuel the explorer returns exactly the markings reachable
    from the initial one, each of them once. *)
Lemma compute_reachable_markings_fuel_correct net dfs pre post fuel :
  precompute net (PetriNet.transitions net) ∅ ∅ = Ok (pre, post) →
  enough_fuel net ≤ fuel →
  ∃ ms, compute_reachable_markings_fuel fuel net dfs = Some (Ok ms) ∧
        NoDup ms ∧
        ∀ M, M ∈ ms ↔
             reachable pre post (sorted (dict_keys (PetriNet.transitions net)))
                       (initial_marking_of net) M.
Proof.
  intros Hpc Hfuel. unfold compute_reachable_markings_fuel. rewrite Hpc.
  apply explore_correct with (U := place_ids net).
  - by apply precompute_total_keys.
  - apply initial_marking_places.
  - by eapply precompute_post_places.
  - apply explore_inv_init.
  - pose proof (enough_fuel_potential net). lia.
Qed.

Lemma compute_reachable_markings_fuel_Raise net dfs fuel e :
  precompute net (PetriNet.transitions net) ∅ ∅ = Raise e →
  compute_reachable_markings_fuel fuel net dfs = Some (Raise e).
Proof. intros Hpc. unfold compute_reachable_markings_fuel. by rewrite Hpc. Qed.

Lemma compute_reachable_markings_places net dfs ms M :
  compute_reachable_markings net dfs = Some (Ok ms) → M ∈ ms →
  M ⊆ place_ids net.
Proof.
  unfold compute_reachable_markings. intros Hc HM.
  destruct (precompute net (PetriNet.transitions net) ∅ ∅) as [[pre post]|e] eqn:Hpc.
  - destruct (compute_reachable_markings_fuel_correct net dfs pre post
                (enough_fuel net) Hpc) as (ms' & Hc' & _ & Hms); [done|].
    rewrite Hc in Hc'. injection Hc' as <-.
    apply Hms in HM. eapply reachable_places; [| |done].
    + apply initial_marking_places.
    + by eapply precompute_post_places.
  - by rewrite (compute_reachable_markings_fuel_Raise _ _ _ _ Hpc) in Hc.
Qed.

Lemma compute_reachable_markings_length net dfs ms :
  compute_reachable_markings net dfs = Some (Ok ms) → NoDup ms →
  length ms ≤ 2 ^ length (PetriNet.places net).
Proof.
  intros Hc Hnd. rewrite <-(size_list_to_set (C := gset marking)) by done.
  etrans; [apply (subsets_bound (place_ids net))|].
  - intros M HM%elem_of_list_to_set.
    by eapply compute_reachable_markings_places.
  - apply Nat.pow_le_mono_r; [done|apply size_place_ids].
Qed.

Lemma precompute_Raise net items pre post e :
  precompute net items pre post = Raise e →
  ∃ tid t aid, (tid, t) ∈ items ∧
    aid ∈ Transition.incoming t ++ Transition.outgoing t ∧
    dict_get (PetriNet.arcs net) aid = None ∧ e = KeyError aid.
Proof.
  revert pre post. induction items as [|[tid t] items IH]; intros pre post; simpl; [done|].
  destruct (add_endpoints net Arc.source _ ∅) as [P|e1] eqn:HP; simpl.
  - destruct (add_endpoints net Arc.target _ ∅) as [Q|e2] eqn:HQ; simpl.
    + intros (tid' & t' & aid & ? & ?)%IH. exists tid', t', aid. split; [by right|done].
    + intros [= <-]. apply add_endpoints_Raise in HQ as (aid & ? & ? & ?).
      exists tid, t, aid. split_and!; [by left| |done..].
      apply elem_of_app. by right.
  - intros [= <-]. apply add_endpoints_Raise in HP as (aid & ? & ? & ?).
    exists tid, t, aid. split_and!; [by left| |done..].
    apply elem_of_app. by left.
Qed.

Lemma precompute_total (net : PetriNet.t) :
  arcs_resolve net →
  ∃ pre post, precompute net (PetriNet.transitions net) ∅ ∅ = Ok (pre, post).
Proof.
  intros Hres.
  destruct (precompute net (PetriNet.transitions net) ∅ ∅) as [[pre post]|e] eqn:Hpc;
    [eauto|].
  apply precompute_Raise in Hpc as (tid & t & aid & Hin & Haid & Hnone & _).
  destruct (Hres tid t aid Hin Haid) as [arc Harc]. congruence.
Qed.

(** ** The firing rule of the explorer *)

Lemma cycle_net_precompute :
  precompute cycle_net (PetriNet.transitions cycle_net) ∅ ∅
  = Ok (cycle_pre, cycle_post).
Proof. vm_compute. reflexivity. Qed.

(** ** Results of the explorer *)

Lemma cycle_net_bfs :
  compute_reachable_markings cycle_net false
  = Some (Ok [{[ "p1" ]}; {[ "p2" ]}]).
Proof. vm_compute. reflexivity. Qed.

Lemma cycle_net_dfs :
  compute_reachable_markings cycle_net true
  = Some (Ok [{[ "p1" ]}; {[ "p2" ]}]).
Proof. vm_compute. reflexivity. Qed.

Lemma cycle_net_arcs_resolve : arcs_resolve cycle_net.
Proof.
  intros tid t aid Ht Ha. simpl in Ht.
  repeat (apply elem_of_cons in Ht as [[= -> ->]|Ht]);
    [..|by apply elem_of_nil in Ht]; simpl in Ha;
    repeat (apply elem_of_cons in Ha as [->|Ha]);
    try (by apply elem_of_nil in Ha); by eexists.
Qed.

(** C9: a marking returned by the explorer holds only ids of places of
    the net. *)
Theorem markings_within_places net dfs ms M p :
  compute_reachable_markings net dfs = Some (Ok ms) →
  M ∈ ms → p ∈ M → p ∈ dict_keys (PetriNet.places net).
Proof.
  intros Hc HM Hp.
  pose proof (compute_reachable_markings_places net dfs ms M Hc HM p Hp) as Hin.
  by apply elem_of_list_to_set in Hin.
Qed.

Lemma markings_within_places_witness :
  compute_reachable_markings cycle_net false
  = Some (Ok [{[ "p1" ]}; {[ "p2" ]}]) ∧
  "p2" ∈ dict_keys (PetriNet.places cycle_net).
Proof.
  split; [exact cycle_net_bfs|].
  apply (markings_within_places cycle_net false [{[ "p1" ]}; {[ "p2" ]}]
           {[ "p2" ]} "p2").
  - exact cycle_net_bfs.
  - right. left.
  - by apply elem_of_singleton.
Defined.

(** C3: the explorer terminates on every net, whatever the shape of its
    marking graph: the fuel of [compute_reachable_markings] is never
    exhausted, more fuel gives the same outcome, and a returned sequence
    has at most [2 ^ |places|] markings. *)
Theorem compute_reachable_markings_terminates net dfs :
  ∃ r, compute_reachable_markings net dfs = Some r ∧
       (∀ fuel, enough_fuel net ≤ fuel →
                compute_reachable_markings_fuel fuel net dfs = Some r) ∧
       (∀ ms, r = Ok ms → length ms ≤ 2 ^ length (PetriNet.places net)).
Proof.
  unfold compute_reachable_markings.
  destruct (precompute net (PetriNet.transitions net) ∅ ∅) as [[pre post]|e] eqn:Hpc.
  - destruct (compute_reachable_markings_fuel_correct net dfs pre post
                (enough_fuel net) Hpc) as (ms & Hc & Hnd & Hms); [done|].
    exists (Ok ms). split_and!; [done| |].
    + intros fuel Hfuel.
      destruct (compute_reachable_markings_fuel_correct net dfs pre post
                  fuel Hpc Hfuel) as (ms' & Hc' & _ & _).
      rewrite Hc'. unfold compute_reachable_markings_fuel in *.
      rewrite Hpc in *.
      by rewrite (explore_fuel_mono _ _ _ _ _ _ Hfuel _ _ Hc) in Hc'.
    + intros ms' [= <-]. by apply (compute_reachable_markings_length net dfs).
  - exists (Raise e). split_and!.
    + by apply compute_reachable_markings_fuel_Raise.
    + intros fuel _. by apply compute_reachable_markings_fuel_Raise.
    + done.
Qed.

(** C2: on a net whose transitions list only existing arcs, breadth-first
    and depth-first exploration both return, and they return the same
    markings; only the order of the two sequences may differ. *)
Theorem bfs_dfs_same_markings net :
  arcs_resolve net →
  ∃ bfs dfs,
    compute_reachable_markings net false = Some (Ok bfs) ∧
    compute_reachable_markings net true = Some (Ok dfs) ∧
    (list_to_set bfs : gset marking) = list_to_set dfs ∧
    bfs ≡ₚ dfs.
Proof.
  intros Hres. destruct (precompute_total net Hres) as (pre & post & Hpc).
  destruct (compute_reachable_markings_fuel_correct net false pre post
              (enough_fuel net) Hpc) as (bfs & Hb & Hndb & Hbfs); [done|].
  destruct (compute_reachable_markings_fuel_correct net true pre post
              (enough_fuel net) Hpc) as (dfs & Hd & Hndd & Hdfs); [done|].
  exists bfs, dfs. split_and!; [done..| |].
  - apply set_eq. intros M. by rewrite !elem_of_list_to_set, Hbfs, Hdfs.
  - apply NoDup_Permutation; [done..|]. intros M. by rewrite Hbfs, Hdfs.
Qed.

Lemma bfs_dfs_same_markings_witness :
  arcs_resolve cycle_net ∧
  ∃ bfs dfs,
    compute_reachable_markings cycle_net false = Some (Ok bfs) ∧
    compute_reachable_markings cycle_net true = Some (Ok dfs) ∧
    (list_to_set bfs : gset marking) = list_to_set dfs ∧
    bfs ≡ₚ dfs.
Proof.
  split; [exact cycle_net_arcs_resolve|].
  apply (bfs_dfs_same_markings cycle_net). exact cycle_net_arcs_resolve.
Defined.

(** ** The discovery sequence *)

Lemma expand_app pre post v M (l1 l2 : list string) :
  ∀ c, expand pre post v M (l1 ++ l2) c
       = expand pre post v M l1 c ≫= expand pre post v M l2.
Proof.
  induction l1 as [|tid l1 IH]; intros c; simpl; [done|].
  destruct (successor pre post M tid) as [[N|]|e]; simpl; [|done..].
  by destruct (decide (N ∈ v)).
Qed.

Lemma sorted_StronglySorted (l : list string) :
  StronglySorted String.le (sorted l).
Proof. apply StronglySorted_merge_sort; apply _. Qed.

Lemma compute_reachable_markings_fuel_det net dfs fuel1 fuel2 r1 r2 :
  compute_reachable_markings_fuel fuel1 net dfs = Some r1 →
  compute_reachable_markings_fuel fuel2 net dfs = Some r2 →
  r1 = r2.
Proof.
  unfold compute_reachable_markings_fuel.
  destruct (precompute net (PetriNet.transitions net) ∅ ∅) as [[pre post]|e];
    [|congruence].
  intros H1 H2. destruct (Nat.le_ge_cases fuel1 fuel2) as [Hle|Hle].
  - apply (explore_fuel_mono _ _ _ _ _ _ Hle) in H1. congruence.
  - apply (explore_fuel_mono _ _ _ _ _ _ Hle) in H2. congruence.
Qed.

(** The same marking can sit in the container twice: both transitions of
    [fork_net] produce [{p1}] from [{p0}]; it is still reported once. *)
Lemma fork_net_queued_twice :
  expand {[ "t1" := {[ "p0" ]}; "t2" := {[ "p0" ]} ]}
         {[ "t1" := {[ "p1" ]}; "t2" := {[ "p1" ]} ]}
         {[ {[ "p0" ]} ]} {[ "p0" ]} ["t1"; "t2"] []
  = Ok [{[ "p1" ]}; {[ "p1" ]}] ∧
  compute_reachable_markings fork_net false
  = Some (Ok [{[ "p0" ]}; {[ "p1" ]}]).
Proof. split; vm_compute; reflexivity. Qed.

(** ** Loops and dictionary updates of the parser *)

Section ForEach.
Context {A S : Type} (body : A → S → result S).

Lemma for_each_Raise (l : list A) (s : S) (e : Error) :
  for_each body l s = Raise e → ∃ x s0, x ∈ l ∧ body x s0 = Raise e.
Proof.
  revert s. induction l as [|x l IH]; intros s; simpl; [done|].
  destruct (body x s) as [s'|e'] eqn:Hb; simpl.
  - intros (y & s0 & ? & ?)%IH. exists y, s0. split; [by right|done].
  - intros [= <-]. exists x, s. split; [by left|done].
Qed.

(** A property kept by every successful iteration holds at the end. *)
Lemma for_each_invariant (P : S → Prop) (l : list A) (s s' : S) :
  (∀ x s1 s2, x ∈ l → P s1 → body x s1 = Ok s2 → P s2) →
  P s → for_each body l s = Ok s' → P s'.
Proof.
  revert s. induction l as [|x l IH]; intros s Hstep Hs; simpl.
  - by intros [= <-].
  - destruct (body x s) as [s1|] eqn:Hb; simpl; [|done].
    apply IH.
    + intros y s2 s3 Hy. apply Hstep. by right.
    + eapply Hstep; [by left|done..].
Qed.

(** The same with the list of the elements processed so far. *)
Lemma for_each_invariant_prefix (P : list A → S → Prop) (l : list A) (s s' : S) :
  (∀ done x s1 s2, P done s1 → body x s1 = Ok s2 → P (done ++ [x]) s2) →
  P [] s → for_each body l s = Ok s' → P l s'.
Proof.
  intros Hstep. cut (∀ done s, P done s → for_each body l s = Ok s' → P (done ++ l) s').
  { intros Hcut Hs Hfe. by apply (Hcut [] s). }
  induction l as [|x l IH]; intros done s0 Hs; simpl.
  - intros [= <-]. by rewrite app_nil_r.
  - destruct (body x s0) as [s1|] eqn:Hb; simpl; [|done].
    intros Hrest. rewrite cons_middle, (assoc_L (++)).
    by eapply IH; [eapply Hstep|].
Qed.
End ForEach.

Section DictUpdates.
Context {V : Type}.
Implicit Types d : list (string * V).

Lemma dict_get_None d k : dict_get d k = None ↔ k ∉ dict_keys d.
Proof. rewrite <-dict_get_is_Some, eq_None_not_Some. done. Qed.

Lemma dict_set_fresh d k v : dict_mem k d = false → dict_set k v d = d ++ [(k, v)].
Proof.
  rewrite dict_mem_false. unfold dict_keys.
  induction d as [|[k' v'] d IH]; simpl; [done|].
  rewrite not_elem_of_cons. intros [Hne Hk].
  destruct (decide (k' = k)); [congruence|]. by rewrite IH.
Qed.

Lemma dict_keys_update d k f : dict_keys (dict_update k f d) = dict_keys d.
Proof.
  unfold dict_keys. induction d as [|[k' v] d IH]; csimpl; [done|].
  destruct (decide (k' = k)); csimpl; [done|]. by rewrite IH.
Qed.

Lemma dict_mem_update d k f k' : dict_mem k' (dict_update k f d) = dict_mem k' d.
Proof.
  destruct (dict_mem k' d) eqn:Hm.
  - apply dict_mem_true. rewrite dict_keys_update. by apply dict_mem_true.
  - apply dict_mem_false. rewrite dict_keys_update. by apply dict_mem_false.
Qed.

Lemma elem_of_dict_update d k f k' v' :
  (k', v') ∈ dict_update k f d →
  (k', v') ∈ d ∨ (k' = k ∧ ∃ v, (k, v) ∈ d ∧ v' = f v).
Proof.
  induction d as [|[k0 v0] d IH]; simpl; [by left|].
  destruct (decide (k0 = k)) as [->|Hne].
  - intros [[= -> ->]|?]%elem_of_cons.
    + right. split; [done|]. exists v0. split; [by left|done].
    + left. by right.
  - intros [[= -> ->]|Hin]%elem_of_cons.
    + left. by left.
    + destruct (IH Hin) as [?|(-> & v & ? & ->)].
      * left. by right.
      * right. split; [done|]. exists v. split; [by right|done].
Qed.

Lemma dict_get_elem_of d k v :
  NoDup (dict_keys d) → (k, v) ∈ d → dict_get d k = Some v.
Proof.
  unfold dict_keys. induction d as [|[k' v'] d IH]; simpl.
  - by intros _ ?%elem_of_nil.
  - rewrite NoDup_cons. intros [Hk Hnd] [[= -> ->]|Hin]%elem_of_cons.
    + by rewrite decide_True.
    + destruct (decide (k' = k)) as [->|?]; [|by apply IH].
      destruct Hk. apply list_elem_of_fmap. by exists (k, v).
Qed.
End DictUpdates.

(** ** The phases of parsePNML and the errors they raise *)

Section ParserErrors.
Context `{StrBuiltins}.

Lemma parse_place_Raise p places e :
  parse_place p places = Raise e →
  e = PlaceNoId ∨ ∃ pid, e = DuplicatePlaceId pid ∧ get p "id" = Some pid
                         ∧ dict_mem pid places = true.
Proof.
  unfold parse_place. destruct (get p "id") as [pid|]; [|intros [= <-]; by left].
  destruct (dict_mem pid places) eqn:Hm; [|done].
  intros [= <-]. right. by exists pid.
Qed.

Lemma parse_transition_Raise t transitions e :
  parse_transition t transitions = Raise e →
  e = TransitionNoId ∨
  ∃ tid, e = DuplicateTransitionId tid ∧ get t "id" = Some tid
         ∧ dict_mem tid transitions = true.
Proof.
  unfold parse_transition.
  destruct (get t "id") as [tid|]; [|intros [= <-]; by left].
  destruct (dict_mem tid transitions) eqn:Hm; [|done].
  intros [= <-]. right. by exists tid.
Qed.

Lemma parse_arc_Raise a arcs e :
  parse_arc a arcs = Raise e →
  e = ArcNoId ∨ (∃ aid, e = DuplicateArcId aid) ∨
  (∃ aid, e = ArcNoSourceTarget aid) ∨
  (∃ aid w, e = NonPositiveWeight aid w).
Proof.
  unfold parse_arc. destruct (get a "id") as [aid|]; [|intros [= <-]; by left].
  destruct (dict_mem aid arcs); [intros [= <-]; right; left; by exists aid|].
  destruct (get a "source"), (get a "target");
    try (intros [= <-]; right; right; left; by exists aid).
  destruct (decide _); [|done].
  intros [= <-]. right. right. right. by eexists _, _.
Qed.

Lemma link_arc_Raise item nodes e :
  link_arc item nodes = Raise e →
  (∃ aid s, e = SourceNotFound aid s) ∨ (∃ aid t, e = TargetNotFound aid t).
Proof.
  destruct item as [aid arc], nodes as [places transitions]. simpl.
  destruct (negb (node_exists places transitions (Arc.source arc)));
    [intros [= <-]; left; by eexists _, _|].
  destruct (negb (node_exists places transitions (Arc.target arc)));
    [intros [= <-]; right; by eexists _, _|].
  by destruct (dict_mem (Arc.source arc) places).
Qed.

(** Building the net raises only structural errors. *)
Lemma build_net_Raise root e : build_net root = Raise e → structural_error e.
Proof.
  unfold build_net.
  destruct (find_net _) as [net_elem|]; [|by intros [= <-]].
  destruct (for_each parse_place _ _) as [places|e1] eqn:Hp; simpl.
  2:{ intros [= <-]. apply for_each_Raise in Hp as (x & s & _ & Hx).
      by apply parse_place_Raise in Hx as [->|(? & -> & _)]. }
  destruct (for_each parse_transition _ _) as [transitions|e1] eqn:Ht; simpl.
  2:{ intros [= <-]. apply for_each_Raise in Ht as (x & s & _ & Hx).
      by apply parse_transition_Raise in Hx as [->|(? & -> & _)]. }
  destruct (for_each parse_arc _ _) as [arcs|e1] eqn:Ha; simpl.
  2:{ intros [= <-]. apply for_each_Raise in Ha as (x & s & _ & Hx).
      by apply parse_arc_Raise in Hx
        as [->|[(? & ->)|[(? & ->)|(? & ? & ->)]]]. }
  destruct (for_each link_arc _ _) as [nodes|e1] eqn:Hl; simpl; [done|].
  intros [= <-]. apply for_each_Raise in Hl as (x & s & _ & Hx).
  by apply link_arc_Raise in Hx as [(? & ? & ->)|(? & ? & ->)].
Qed.

(** When and how [parsePNML] succeeds. *)
Lemma parsePNML_Ok root require_1safe net :
  parsePNML root require_1safe = Ok net ↔
  build_net root = Ok net ∧
  isolated_nodes (PetriNet.places net) (PetriNet.transitions net) = [] ∧
  (require_1safe = true →
     bad_markings (PetriNet.places net) = [] ∧
     heavy_arcs (PetriNet.arcs net) = []).
Proof.
  unfold parsePNML, check_isolated, check_1safe. split.
  - destruct (build_net root) as [net'|e]; simpl; [|done].
    destruct (isolated_nodes _ _) as [|n ns] eqn:Hi; simpl; [|done].
    destruct require_1safe; simpl.
    + destruct (bad_markings _) as [|b bs] eqn:Hb; simpl; [|done].
      destruct (heavy_arcs _) as [|h hs] eqn:Hh; simpl; [|done].
      by intros [= <-].
    + by intros [= <-].
  - intros (-> & Hi & Hsafe). simpl. rewrite Hi. simpl.
    destruct require_1safe; simpl; [|done].
    destruct (Hsafe eq_refl) as [-> ->]. done.
Qed.

(** When and how [parsePNML] fails. *)
Lemma parsePNML_Raise root require_1safe e :
  parsePNML root require_1safe = Raise e ↔
  build_net root = Raise e ∨
  ∃ net, build_net root = Ok net ∧
    let isolated :=
      isolated_nodes (PetriNet.places net) (PetriNet.transitions net) in
    (isolated ≠ [] ∧ e = IsolatedNodes isolated) ∨
    (isolated = [] ∧ require_1safe = true ∧
     ((bad_markings (PetriNet.places net) ≠ [] ∧
       e = NonBinaryMarkings (bad_markings (PetriNet.places net))) ∨
      (bad_markings (PetriNet.places net) = [] ∧
       heavy_arcs (PetriNet.arcs net) ≠ [] ∧
       e = HeavyArcs (heavy_arcs (PetriNet.arcs net))))).
Proof.
  unfold parsePNML, check_isolated, check_1safe.
  destruct (build_net root) as [net'|e']; simpl; [|naive_solver].
  destruct (isolated_nodes _ _) as [|n ns] eqn:Hi; simpl.
  2:{ split; [intros [= <-]; right; exists net'; rewrite Hi; naive_solver|].
      intros [?|(net & [= <-] & Hcases)]; [done|]. rewrite Hi in Hcases.
      naive_solver. }
  destruct require_1safe; simpl.
  2:{ split; [done|]. intros [?|(net & [= <-] & Hcases)]; [done|].
      rewrite Hi in Hcases. naive_solver. }
  destruct (bad_markings _) as [|b bs] eqn:Hb; simpl.
  2:{ split; [intros [= <-]; right; exists net'; rewrite Hi, Hb; naive_solver|].
      intros [?|(net & [= <-] & Hcases)]; [done|]. rewrite Hi, Hb in Hcases.
      naive_solver. }
  destruct (heavy_arcs _) as [|h hs] eqn:Hh; simpl.
  - split; [done|]. intros [?|(net & [= <-] & Hcases)]; [done|].
    rewrite Hi, Hb, Hh in Hcases. naive_solver.
  - split; [intros [= <-]; right; exists net'; rewrite Hi, Hb, Hh; naive_solver|].
    intros [?|(net & [= <-] & Hcases)]; [done|]. rewrite Hi, Hb, Hh in Hcases.
    naive_solver.
Qed.
End ParserErrors.

(** ** What the built net looks like *)

Section BuiltNet.
Context `{StrBuiltins}.

Lemma parse_place_Ok p places places' :
  parse_place p places = Ok places' →
  ∃ pid, get p "id" = Some pid ∧ dict_mem pid places = false ∧
    places' = places ++
      [(pid, Place.mk pid (str_or (parseText p ["name"; "text"])
                                  (parseText p ["name"]))
                      (parseInteger (im_text p) 0) [] [])].
Proof.
  unfold parse_place. destruct (get p "id") as [pid|]; [|done].
  destruct (dict_mem pid places) eqn:Hm; [done|].
  intros [= <-]. exists pid. by rewrite dict_set_fresh.
Qed.

Lemma parse_transition_Ok t transitions transitions' :
  parse_transition t transitions = Ok transitions' →
  ∃ tid, get t "id" = Some tid ∧ dict_mem tid transitions = false ∧
    transitions' = transitions ++
      [(tid, Transition.mk tid (str_or (parseText t ["name"; "text"])
                                       (parseText t ["name"])) [] [])].
Proof.
  unfold parse_transition. destruct (get t "id") as [tid|]; [|done].
  destruct (dict_mem tid transitions) eqn:Hm; [done|].
  intros [= <-]. exists tid. by rewrite dict_set_fresh.
Qed.

Lemma parse_arc_Ok a arcs arcs' :
  parse_arc a arcs = Ok arcs' →
  ∃ aid source target,
    get a "id" = Some aid ∧ dict_mem aid arcs = false ∧
    get a "source" = Some source ∧ get a "target" = Some target ∧
    (0 < parseInteger (weight_text a) 1)%Z ∧
    arcs' = arcs ++
      [(aid, Arc.mk aid source target (parseInteger (weight_text a) 1))].
Proof.
  unfold parse_arc. destruct (get a "id") as [aid|]; [|done].
  destruct (dict_mem aid arcs) eqn:Hm; [done|].
  destruct (get a "source") as [source|]; [|done].
  destruct (get a "target") as [target|]; [|done].
  destruct (decide _) as [|Hw]; [done|].
  intros [= <-]. exists aid, source, target.
  rewrite dict_set_fresh by done. split_and!; [done..|lia|done].
Qed.

Lemma NoDup_keys_snoc {V} (d : list (string * V)) k v :
  NoDup (dict_keys d) → dict_mem k d = false →
  NoDup (dict_keys (d ++ [(k, v)])).
Proof.
  intros Hnd Hm%dict_mem_false. unfold dict_keys in *. rewrite fmap_app.
  apply NoDup_app. split_and!; [done| |apply NoDup_singleton].
  by intros k' Hk' ->%list_elem_of_singleton.
Qed.

Lemma parse_places_NoDup elems places :
  for_each parse_place elems [] = Ok places → NoDup (dict_keys places).
Proof.
  apply (for_each_invariant parse_place (λ s, NoDup (dict_keys s)));
    [|constructor].
  intros p s1 s2 _ Hnd (pid & _ & Hm & ->)%parse_place_Ok.
  by apply NoDup_keys_snoc.
Qed.

Lemma parse_arcs_NoDup elems arcs :
  for_each parse_arc elems [] = Ok arcs → NoDup (dict_keys arcs).
Proof.
  apply (for_each_invariant parse_arc (λ s, NoDup (dict_keys s)));
    [|constructor].
  intros a s1 s2 _ Hnd (aid & src & tgt & _ & Hm & _ & _ & _ & ->)%parse_arc_Ok.
  by apply NoDup_keys_snoc.
Qed.

Lemma parse_transitions_fresh elems transitions :
  for_each parse_transition elems [] = Ok transitions →
  NoDup (dict_keys transitions) ∧
  ∀ tid t, (tid, t) ∈ transitions → transition_isolated t.
Proof.
  apply (for_each_invariant parse_transition
           (λ s, NoDup (dict_keys s) ∧
                 ∀ tid t, (tid, t) ∈ s → transition_isolated t)).
  - intros t s1 s2 _ [Hnd Hiso] (tid & _ & Hm & ->)%parse_transition_Ok.
    split; [by apply NoDup_keys_snoc|].
    intros tid' t' [?|[= -> ->]%list_elem_of_singleton]%elem_of_app; [eauto|].
    done.
  - split; [constructor|]. by intros ?? ?%elem_of_nil.
Qed.

(** One arc attached: the keys stay, and the new entries of the
    transitions' lists are justified by the arc. *)
Lemma link_arc_Ok known item places transitions places' transitions' :
  link_arc item (places, transitions) = Ok (places', transitions') →
  dict_keys places' = dict_keys places ∧
  dict_keys transitions' = dict_keys transitions ∧
  (transitions_linked known places transitions →
   transitions_linked (known ++ [item]) places' transitions').
Proof.
  destruct item as [aid arc]. simpl.
  destruct (negb (node_exists places transitions (Arc.source arc))); [done|].
  destruct (negb (node_exists places transitions (Arc.target arc))); [done|].
  assert (∀ known' pl tr, transitions_linked known' pl tr →
            transitions_linked (known' ++ [(aid, arc)]) pl tr) as Hmono.
  { intros known' pl tr Hl tid t Hin. destruct (Hl tid t Hin) as [Hi Ho].
    split; intros a Ha; [destruct (Hi a Ha) as (arc' & ? & ?)
                        |destruct (Ho a Ha) as (arc' & ? & ?)];
      exists arc'; (split; [apply elem_of_app; by left|done]). }
  assert (∀ pl tr k f, transitions_linked (known ++ [(aid, arc)]) pl tr →
            transitions_linked (known ++ [(aid, arc)]) (dict_update k f pl) tr)
    as Hplaces.
  { intros pl tr k f Hl tid t Hin. destruct (Hl tid t Hin) as [Hi Ho].
    split; intros a Ha; [destruct (Hi a Ha) as (arc' & ? & ? & ?)
                        |destruct (Ho a Ha) as (arc' & ? & ? & ?)];
      exists arc'; by rewrite dict_mem_update. }
  assert (∀ pl tr, dict_mem (Arc.source arc) pl = false →
            transitions_linked (known ++ [(aid, arc)]) pl tr →
            transitions_linked (known ++ [(aid, arc)]) pl
              (dict_update (Arc.source arc) (add_outgoing_transition aid) tr))
    as Hout.
  { intros pl tr Hm Hl tid t [Hin|(-> & t0 & Hin & ->)]%elem_of_dict_update;
      [by apply Hl|].
    destruct (Hl _ _ Hin) as [Hi Ho]. split; [done|]. simpl.
    intros a [Ha| ->%list_elem_of_singleton]%elem_of_app; [by apply Ho|].
    exists arc. split_and!; [|done..]. apply elem_of_app. right. by left. }
  assert (∀ pl tr, dict_mem (Arc.target arc) pl = false →
            transitions_linked (known ++ [(aid, arc)]) pl tr →
            transitions_linked (known ++ [(aid, arc)]) pl
              (dict_update (Arc.target arc) (add_incoming_transition aid) tr))
    as Hinc.
  { intros pl tr Hm Hl tid t [Hin|(-> & t0 & Hin & ->)]%elem_of_dict_update;
      [by apply Hl|].
    destruct (Hl _ _ Hin) as [Hi Ho]. split; [|done]. simpl.
    intros a [Ha| ->%list_elem_of_singleton]%elem_of_app; [by apply Hi|].
    exists arc. split_and!; [|done..]. apply elem_of_app. right. by left. }
  destruct (dict_mem (Arc.source arc) places) eqn:Hs;
    destruct (dict_mem (Arc.target arc) _) eqn:Ht;
    intros [= <- <-]; rewrite ?dict_keys_update; (split_and!; [done..|]);
    intros Hl%Hmono; rewrite ?dict_mem_update in Ht; auto.
Qed.

Lemma link_arcs_Ok arcs places transitions nodes :
  for_each link_arc arcs (places, transitions) = Ok nodes →
  transitions_linked [] places transitions →
  dict_keys nodes.1 = dict_keys places ∧
  dict_keys nodes.2 = dict_keys transitions ∧
  transitions_linked arcs nodes.1 nodes.2.
Proof.
  intros Hfe Hl.
  apply (for_each_invariant_prefix link_arc
           (λ done s, dict_keys s.1 = dict_keys places ∧
                      dict_keys s.2 = dict_keys transitions ∧
                      transitions_linked done s.1 s.2)
           arcs (places, transitions) nodes); [|done..].
  intros known item [pl tr] [pl' tr'] (Hk1 & Hk2 & Hlk) Hstep. simpl in *.
  destruct (link_arc_Ok known _ _ _ _ _ Hstep) as (Hk1' & Hk2' & Hlk').
  split_and!; [congruence..|auto].
Qed.

(** The net that [build_net] returns. *)
Lemma build_net_Ok root net :
  build_net root = Ok net →
  NoDup (dict_keys (PetriNet.places net)) ∧
  NoDup (dict_keys (PetriNet.transitions net)) ∧
  NoDup (dict_keys (PetriNet.arcs net)) ∧
  transitions_linked (PetriNet.arcs net) (PetriNet.places net)
                     (PetriNet.transitions net).
Proof.
  unfold build_net.
  destruct (find_net _) as [net_elem|]; [|done].
  destruct (for_each parse_place _ _) as [places|] eqn:Hp; simpl; [|done].
  destruct (for_each parse_transition _ _) as [transitions|] eqn:Ht; simpl; [|done].
  destruct (for_each parse_arc _ _) as [arcs|] eqn:Ha; simpl; [|done].
  destruct (for_each link_arc _ _) as [nodes|] eqn:Hl; simpl; [|done].
  intros [= <-]. simpl.
  apply parse_places_NoDup in Hp. apply parse_arcs_NoDup in Ha.
  apply parse_transitions_fresh in Ht as [Hnd Hiso].
  apply link_arcs_Ok in Hl as (Hk1 & Hk2 & Hlk).
  - rewrite Hk1, Hk2. done.
  - intros tid t Hin. destruct (Hiso tid t Hin) as [Hi Ho].
    rewrite Hi, Ho. split; by intros ? ?%elem_of_nil.
Qed.
End BuiltNet.

(** ** Validation of the built net *)

Lemma elem_of_isolated_nodes places transitions (kind nid : string) :
  (kind, nid) ∈ isolated_nodes places transitions ↔
  (kind = "place" ∧ ∃ p, (nid, p) ∈ places ∧ place_isolated p) ∨
  (kind = "transition" ∧ ∃ t, (nid, t) ∈ transitions ∧ transition_isolated t).
Proof.
  unfold isolated_nodes. rewrite elem_of_app, !list_elem_of_fmap. split.
  - intros [([pid p] & [= -> ->] & [Hiso Hin]%list_elem_of_filter)
           |([tid t] & [= -> ->] & [Hiso Hin]%list_elem_of_filter)].
    + left. split; [done|]. by exists p.
    + right. split; [done|]. by exists t.
  - intros [(-> & p & Hin & Hiso)|(-> & t & Hin & Hiso)].
    + left. exists (nid, p). split; [done|]. by apply list_elem_of_filter.
    + right. exists (nid, t). split; [done|]. by apply list_elem_of_filter.
Qed.

Lemma isolated_nodes_nonempty places transitions :
  isolated_nodes places transitions ≠ [] ↔
  (∃ pid p, (pid, p) ∈ places ∧ place_isolated p) ∨
  (∃ tid t, (tid, t) ∈ transitions ∧ transition_isolated t).
Proof.
  split.
  - destruct (isolated_nodes places transitions) as [|[kind nid] l] eqn:Hl; [done|].
    intros _. assert ((kind, nid) ∈ isolated_nodes places transitions) as Hin
      by (rewrite Hl; by left).
    apply elem_of_isolated_nodes in Hin as [(_ & p & ?)|(_ & t & ?)]; eauto.
  - intros [(pid & p & Hin & Hiso)|(tid & t & Hin & Hiso)] Hnil.
    + assert (("place", pid) ∈ isolated_nodes places transitions) as Hx
        by (apply elem_of_isolated_nodes; left; eauto).
      rewrite Hnil in Hx. by apply elem_of_nil in Hx.
    + assert (("transition", tid) ∈ isolated_nodes places transitions) as Hx
        by (apply elem_of_isolated_nodes; right; eauto).
      rewrite Hnil in Hx. by apply elem_of_nil in Hx.
Qed.

Lemma elem_of_bad_markings places (pid : string) (v : Z) :
  (pid, v) ∈ bad_markings places ↔
  ∃ p, (pid, p) ∈ places ∧ Place.initial_marking p = v ∧ v ≠ 0%Z ∧ v ≠ 1%Z.
Proof.
  unfold bad_markings. rewrite list_elem_of_fmap. split.
  - intros ([pid' p] & [= -> ->] & [[??] Hin]%list_elem_of_filter). by exists p.
  - intros (p & Hin & <- & ? & ?). exists (pid, p). split; [done|].
    by apply list_elem_of_filter.
Qed.

Lemma elem_of_heavy_arcs arcs (aid : string) :
  aid ∈ heavy_arcs arcs ↔ ∃ a, (aid, a) ∈ arcs ∧ Arc.weight a ≠ 1%Z.
Proof.
  unfold heavy_arcs. rewrite list_elem_of_fmap. split.
  - intros ([aid' a] & -> & [? Hin]%list_elem_of_filter). by exists a.
  - intros (a & Hin & ?). exists (aid, a). split; [done|].
    by apply list_elem_of_filter.
Qed.

(** C7: [parsePNML] fails on isolated nodes exactly when the net could be
    built and some place or transition has neither an incoming nor an
    outgoing arc; the single error lists every such node, places first. *)
Theorem isolated_nodes_failure `{StrBuiltins} root require_1safe nodes :
  (parsePNML root require_1safe = Raise (IsolatedNodes nodes) ↔
   ∃ net, build_net root = Ok net ∧
          nodes = isolated_nodes (PetriNet.places net) (PetriNet.transitions net) ∧
          nodes ≠ []) ∧
  (∀ places transitions,
     (isolated_nodes places transitions ≠ [] ↔
      (∃ pid p, (pid, p) ∈ places ∧ place_isolated p) ∨
      (∃ tid t, (tid, t) ∈ transitions ∧ transition_isolated t)) ∧
     (∀ kind nid, (kind, nid) ∈ isolated_nodes places transitions ↔
        (kind = "place" ∧ ∃ p, (nid, p) ∈ places ∧ place_isolated p) ∨
        (kind = "transition" ∧
         ∃ t, (nid, t) ∈ transitions ∧ transition_isolated t))).
Proof.
  split.
  - rewrite parsePNML_Raise. split.
    + intros [Hb|(net & Hb & [[Hne [= ->]]|(_ & _ & [[_ ?]|(_ & _ & ?)])])];
        [by apply build_net_Raise in Hb| |done..].
      by exists net.
    + intros (net & Hb & -> & Hne). right. exists net. split; [done|].
      by left.
  - intros places transitions. split.
    + apply isolated_nodes_nonempty.
    + apply elem_of_isolated_nodes.
Qed.

(** C6: with [require_1safe], the initial markings are checked first and
    all the offending places are reported together; the arc weights are
    looked at only when no marking offends, and then all the offending arcs
    are reported together.  Without [require_1safe] neither error occurs. *)
Theorem one_safe_checks `{StrBuiltins} root :
  (∀ bad, parsePNML root true = Raise (NonBinaryMarkings bad) ↔
     ∃ net, build_net root = Ok net ∧
       isolated_nodes (PetriNet.places net) (PetriNet.transitions net) = [] ∧
       bad = bad_markings (PetriNet.places net) ∧ bad ≠ []) ∧
  (∀ heavy, parsePNML root true = Raise (HeavyArcs heavy) ↔
     ∃ net, build_net root = Ok net ∧
       isolated_nodes (PetriNet.places net) (PetriNet.transitions net) = [] ∧
       bad_markings (PetriNet.places net) = [] ∧
       heavy = heavy_arcs (PetriNet.arcs net) ∧ heavy ≠ []) ∧
  (∀ e, parsePNML root false = Raise e →
     (∀ bad, e ≠ NonBinaryMarkings bad) ∧ (∀ heavy, e ≠ HeavyArcs heavy)) ∧
  (∀ places pid v, (pid, v) ∈ bad_markings places ↔
     ∃ p, (pid, p) ∈ places ∧ Place.initial_marking p = v ∧ v ≠ 0%Z ∧ v ≠ 1%Z) ∧
  (∀ arcs aid, aid ∈ heavy_arcs arcs ↔
     ∃ a, (aid, a) ∈ arcs ∧ Arc.weight a ≠ 1%Z).
Proof.
  split_and!.
  - intros bad. rewrite parsePNML_Raise. split.
    + intros [Hb|(net & Hb & [[_ ?]|(Hi & _ & [[Hne [= ->]]|(_ & _ & ?)])])];
        [by apply build_net_Raise in Hb|done| |done].
      by exists net.
    + intros (net & Hb & Hi & -> & Hne). right. exists net. split; [done|].
      right. split_and!; [done..|]. by left.
  - intros heavy. rewrite parsePNML_Raise. split.
    + intros [Hb|(net & Hb & [[_ ?]|(Hi & _ & [[_ ?]|(Hbad & Hne & [= ->])])])];
        [by apply build_net_Raise in Hb|done..|].
      by exists net.
    + intros (net & Hb & Hi & Hbad & -> & Hne). right. exists net.
      split; [done|]. right. split_and!; [done..|]. by right.
  - intros e. rewrite parsePNML_Raise.
    intros [Hb|(net & Hb & [[_ ->]|(_ & ? & _)])]; [|done..].
    apply build_net_Raise in Hb. split; intros x ->; done.
  - apply elem_of_bad_markings.
  - apply elem_of_heavy_arcs.
Qed.

(** ** Numbers read from the document *)

Section Numbers.
Context `{StrBuiltins}.

Lemma parseInteger_nonpositive (s : option string) (w : Z) :
  parseInteger s 1 = w ∧ (w ≤ 0)%Z ↔
  (∃ s', s = Some s' ∧ int_of_str (str_strip s') = Some w) ∧ (w ≤ 0)%Z.
Proof.
  unfold parseInteger. destruct s as [s'|].
  - destruct (int_of_str (str_strip s')) as [n|] eqn:Hi.
    + split.
      * intros [-> ?]. eauto.
      * intros [(s0 & Hs0 & Hw) ?]. injection Hs0 as <-. split; [congruence|done].
    + split; [intros [<- ?]; lia|].
      intros [(s0 & Hs0 & Hw) ?]. injection Hs0 as <-. congruence.
  - split; [intros [<- ?]; lia|]. by intros [(? & ? & _) _].
Qed.

Lemma parse_arc_NonPositiveWeight a arcs aid w :
  parse_arc a arcs = Raise (NonPositiveWeight aid w) ↔
  get a "id" = Some aid ∧ dict_mem aid arcs = false ∧
  is_Some (get a "source") ∧ is_Some (get a "target") ∧
  (∃ s, weight_text a = Some s ∧ int_of_str (str_strip s) = Some w) ∧
  (w ≤ 0)%Z.
Proof.
  unfold parse_arc. split.
  - destruct (get a "id") as [aid'|]; [|done].
    destruct (dict_mem aid' arcs) eqn:Hm; [done|].
    destruct (get a "source") as [src|]; [|done].
    destruct (get a "target") as [tgt|]; [|done].
    destruct (decide _) as [Hw|]; [|done]. intros [= -> <-].
    destruct (proj1 (parseInteger_nonpositive (weight_text a)
                       (parseInteger (weight_text a) 1))) as [Hs _]; [done|].
    split_and!; eauto.
  - intros (-> & -> & [src ->] & [tgt ->] & Hs & Hw).
    destruct (proj2 (parseInteger_nonpositive (weight_text a) w)) as [-> _];
      [done|].
    by rewrite decide_True.
Qed.
End Numbers.

Lemma dict_get_set {V} (d : list (string * V)) k v :
  dict_get (dict_set k v d) k = Some v.
Proof.
  induction d as [|[k' v'] d IH]; simpl.
  - by rewrite decide_True.
  - destruct (decide (k' = k)) as [->|Hne]; simpl.
    + by rewrite decide_True.
    + by rewrite decide_False.
Qed.

Lemma dict_get_set_ne {V} (d : list (string * V)) k k' v :
  k ≠ k' → dict_get (dict_set k v d) k' = dict_get d k'.
Proof.
  intros Hne. induction d as [|[k0 v0] d IH]; simpl.
  - by rewrite decide_False.
  - destruct (decide (k0 = k)) as [->|Hne0]; simpl.
    + by rewrite !decide_False.
    + destruct (decide (k0 = k')); [done|apply IH].
Qed.

(** ** Node ids of the built net *)

Section NodeIds.
Context `{StrBuiltins}.

Lemma parse_places_keys elems places :
  for_each parse_place elems [] = Ok places →
  Some <$> dict_keys places = (λ e, get e "id") <$> elems.
Proof.
  apply (for_each_invariant_prefix parse_place
           (λ done s, Some <$> dict_keys s = (λ e, get e "id") <$> done));
    [|done].
  intros done p s1 s2 IH (pid & Hid & _ & ->)%parse_place_Ok.
  unfold dict_keys in *. rewrite !fmap_app, IH. simpl. by rewrite Hid.
Qed.

Lemma parse_transitions_keys elems transitions :
  for_each parse_transition elems [] = Ok transitions →
  Some <$> dict_keys transitions = (λ e, get e "id") <$> elems.
Proof.
  apply (for_each_invariant_prefix parse_transition
           (λ done s, Some <$> dict_keys s = (λ e, get e "id") <$> done));
    [|done].
  intros done p s1 s2 IH (pid & Hid & _ & ->)%parse_transition_Ok.
  unfold dict_keys in *. rewrite !fmap_app, IH. simpl. by rewrite Hid.
Qed.

Lemma parse_arcs_keys elems arcs :
  for_each parse_arc elems [] = Ok arcs →
  Some <$> dict_keys arcs = (λ e, get e "id") <$> elems.
Proof.
  apply (for_each_invariant_prefix parse_arc
           (λ done s, Some <$> dict_keys s = (λ e, get e "id") <$> done));
    [|done].
  intros done p s1 s2 IH (aid & ? & ? & Hid & _ & _ & _ & _ & ->)%parse_arc_Ok.
  unfold dict_keys in *. rewrite !fmap_app, IH. simpl. by rewrite Hid.
Qed.

(** The built net has one place, transition and arc per element of the
    document, in document order, under the element's id. *)
Lemma build_net_keys root net :
  build_net root = Ok net →
  ∃ net_elem,
    find_net (strip_namespace root) = Some net_elem ∧
    PetriNet.id net = get net_elem "id" ∧
    Some <$> dict_keys (PetriNet.places net)
      = (λ e, get e "id") <$> findall net_elem "place" ∧
    Some <$> dict_keys (PetriNet.transitions net)
      = (λ e, get e "id") <$> findall net_elem "transition" ∧
    Some <$> dict_keys (PetriNet.arcs net)
      = (λ e, get e "id") <$> findall net_elem "arc".
Proof.
  unfold build_net.
  destruct (find_net _) as [net_elem|]; [|done].
  destruct (for_each parse_place _ _) as [places|] eqn:Hp; simpl; [|done].
  destruct (for_each parse_transition _ _) as [transitions|] eqn:Ht; simpl; [|done].
  destruct (for_each parse_arc _ _) as [arcs|] eqn:Ha; simpl; [|done].
  destruct (for_each link_arc _ _) as [nodes|] eqn:Hl; simpl; [|done].
  intros [= <-]. simpl. exists net_elem.
  apply parse_transitions_fresh in Ht as Hfresh. destruct Hfresh as [_ Hiso].
  apply link_arcs_Ok in Hl as (-> & -> & _).
  - by rewrite (parse_places_keys _ _ Hp), (parse_transitions_keys _ _ Ht),
      (parse_arcs_keys _ _ Ha).
  - intros tid t Hin. destruct (Hiso tid t Hin) as [Hi Ho].
    rewrite Hi, Ho. split; by intros ? ?%elem_of_nil.
Qed.

(** A transition whose id is also the id of a place never gets an arc. *)
Lemma linked_shared_id_isolated known places transitions tid t :
  transitions_linked known places transitions →
  (tid, t) ∈ transitions → dict_mem tid places = true →
  transition_isolated t.
Proof.
  intros Hl Hin Hm. destruct (Hl tid t Hin) as [Hi Ho]. split.
  - destruct (Transition.incoming t) as [|aid l]; [done|].
    destruct (Hi aid) as (? & _ & _ & ?); [by left|congruence].
  - destruct (Transition.outgoing t) as [|aid l]; [done|].
    destruct (Ho aid) as (? & _ & _ & ?); [by left|congruence].
Qed.

Lemma build_net_shared_id root require_1safe net id :
  build_net root = Ok net →
  id ∈ dict_keys (PetriNet.places net) →
  id ∈ dict_keys (PetriNet.transitions net) →
  ∃ nodes, parsePNML root require_1safe = Raise (IsolatedNodes nodes) ∧
           ("transition", id) ∈ nodes.
Proof.
  intros Hb Hp [t Ht]%elem_of_dict_keys.
  destruct (build_net_Ok root net Hb) as (_ & _ & _ & Hl).
  assert (transition_isolated t) as Hiso.
  { eapply linked_shared_id_isolated; [done..|]. by apply dict_mem_true. }
  assert (("transition", id)
            ∈ isolated_nodes (PetriNet.places net) (PetriNet.transitions net))
    as Hin by (apply elem_of_isolated_nodes; right; eauto).
  eexists. split; [|done]. apply parsePNML_Raise. right. exists net.
  split; [done|]. left. split; [|done].
  intros Hnil. rewrite Hnil in Hin. by apply elem_of_nil in Hin.
Qed.
End NodeIds.

(** C5, as the code has it: no returned net has an id that names both a
    place and a transition, and a document in which an id names both is
    always rejected.  There is no check across the two kinds: when the net
    can be built, the transition has received no arc and the document is
    rejected for its isolated nodes, the transition among them. *)
Theorem node_ids_disjoint `{StrBuiltins} root require_1safe :
  (∀ net id, parsePNML root require_1safe = Ok net →
     id ∈ dict_keys (PetriNet.places net) →
     id ∉ dict_keys (PetriNet.transitions net)) ∧
  (∀ net_elem p t id,
     find_net (strip_namespace root) = Some net_elem →
     p ∈ findall net_elem "place" → t ∈ findall net_elem "transition" →
     get p "id" = Some id → get t "id" = Some id →
     ∃ e, parsePNML root require_1safe = Raise e ∧
          (structural_error e ∨
           ∃ nodes, e = IsolatedNodes nodes ∧ ("transition", id) ∈ nodes)).
Proof.
  split.
  - intros net id Hok Hin Hin'.
    destruct (proj1 (parsePNML_Ok root require_1safe net) Hok) as (Hb & _ & _).
    destruct (build_net_shared_id root require_1safe net id Hb Hin Hin')
      as (nodes & Hr & _).
    congruence.
  - intros net_elem p t id Hnet Hp Ht Hpid Htid.
    destruct (build_net root) as [net|e] eqn:Hb.
    + destruct (build_net_keys root net Hb) as (net_elem' & Hnet' & _ & Hkp & Hkt & _).
      rewrite Hnet in Hnet'. injection Hnet' as <-.
      destruct (build_net_shared_id root require_1safe net id Hb)
        as (nodes & Hr & Hin).
      * apply (list_elem_of_fmap_2 (λ e, get e "id")) in Hp.
        rewrite Hpid, <-Hkp in Hp.
        by apply list_elem_of_fmap in Hp as (? & [= <-] & ?).
      * apply (list_elem_of_fmap_2 (λ e, get e "id")) in Ht.
        rewrite Htid, <-Hkt in Ht.
        by apply list_elem_of_fmap in Ht as (? & [= <-] & ?).
      * exists (IsolatedNodes nodes). split; [done|]. right. by exists nodes.
    + exists e. split; [apply parsePNML_Raise; by left|].
      left. by apply build_net_Raise in Hb.
Qed.

(** The document in which [x] names a place and a transition is rejected
    for an isolated transition, not for a duplicate id. *)
Lemma shared_id_not_duplicate_failure :
  parsePNML shared_id_doc true = Raise (IsolatedNodes [("transition", "x")]) ∧
  ¬ ∃ id, parsePNML shared_id_doc true = Raise (DuplicatePlaceId id) ∨
          parsePNML shared_id_doc true = Raise (DuplicateTransitionId id) ∨
          parsePNML shared_id_doc true = Raise (DuplicateArcId id).
Proof.
  assert (parsePNML shared_id_doc true
          = Raise (IsolatedNodes [("transition", "x")])) as Hr
    by (vm_compute; reflexivity).
  split; [done|]. rewrite Hr. by intros (id & [?|[?|?]]).
Qed.

(** ** Which arcs reach the presets and postsets *)

Lemma precompute_values net pre post tid P Q :
  precompute net (PetriNet.transitions net) ∅ ∅ = Ok (pre, post) →
  pre !! tid = Some P → post !! tid = Some Q →
  ∃ t, (tid, t) ∈ PetriNet.transitions net ∧
    (∀ p, p ∈ P ↔
       ∃ aid arc, aid ∈ Transition.incoming t ∧
         dict_get (PetriNet.arcs net) aid = Some arc ∧
         Arc.source arc = p ∧ p ∈ dict_keys (PetriNet.places net)) ∧
    (∀ p, p ∈ Q ↔
       ∃ aid arc, aid ∈ Transition.outgoing t ∧
         dict_get (PetriNet.arcs net) aid = Some arc ∧
         Arc.target arc = p ∧ p ∈ dict_keys (PetriNet.places net)).
Proof.
  intros Hpc HP HQ.
  destruct (precompute_Ok _ _ _ _ _ _ Hpc tid)
    as [(Hpre & _ & _)|(t & P' & Q' & Hin & HP' & HQ' & HP'' & HQ'')].
  { by rewrite HP, lookup_empty in Hpre. }
  rewrite HP in HP''. rewrite HQ in HQ''.
  injection HP'' as <-. injection HQ'' as <-.
  exists t. split_and!; [done| |].
  - intros p. rewrite (add_endpoints_Ok _ _ _ _ _ HP'). split.
    + intros [?%not_elem_of_empty|(aid & arc & ? & ? & ? & Hp)]; [done|].
      exists aid, arc. split_and!; [done..|].
      by apply elem_of_list_to_set in Hp.
    + intros (aid & arc & ? & ? & ? & Hp). right. exists aid, arc.
      split_and!; [done..|]. by apply elem_of_list_to_set.
  - intros p. rewrite (add_endpoints_Ok _ _ _ _ _ HQ'). split.
    + intros [?%not_elem_of_empty|(aid & arc & ? & ? & ? & Hp)]; [done|].
      exists aid, arc. split_and!; [done..|].
      by apply elem_of_list_to_set in Hp.
    + intros (aid & arc & ? & ? & ? & Hp). right. exists aid, arc.
      split_and!; [done..|]. by apply elem_of_list_to_set.
Qed.

Lemma build_net_arcs_resolve `{StrBuiltins} root net :
  build_net root = Ok net → arcs_resolve net.
Proof.
  intros (_ & _ & Hnd & Hl)%build_net_Ok tid t aid Hin Haid.
  destruct (Hl tid t Hin) as [Hi Ho].
  apply elem_of_app in Haid as [Ha|Ha].
  - destruct (Hi aid Ha) as (arc & Harc & _). exists arc.
    by apply dict_get_elem_of.
  - destruct (Ho aid Ha) as (arc & Harc & _). exists arc.
    by apply dict_get_elem_of.
Qed.

(** C10: an incoming arc adds its source to a preset, and an outgoing arc
    its target to a postset, only when that endpoint is a place.  In a net
    returned by [parsePNML] every member of a preset comes from an arc
    that leads from a place to the transition, and every member of a
    postset from an arc that leads from the transition to a place, the
    transition's id being no place id: arcs between two transitions or
    between two places add nothing. *)
Theorem presets_from_place_transition_arcs `{StrBuiltins} :
  (∀ net pre post tid P Q,
     precompute net (PetriNet.transitions net) ∅ ∅ = Ok (pre, post) →
     pre !! tid = Some P → post !! tid = Some Q →
     ∃ t, (tid, t) ∈ PetriNet.transitions net ∧
       (∀ p, p ∈ P ↔
          ∃ aid arc, aid ∈ Transition.incoming t ∧
            dict_get (PetriNet.arcs net) aid = Some arc ∧
            Arc.source arc = p ∧ p ∈ dict_keys (PetriNet.places net)) ∧
       (∀ p, p ∈ Q ↔
          ∃ aid arc, aid ∈ Transition.outgoing t ∧
            dict_get (PetriNet.arcs net) aid = Some arc ∧
            Arc.target arc = p ∧ p ∈ dict_keys (PetriNet.places net))) ∧
  (∀ root require_1safe net,
     parsePNML root require_1safe = Ok net →
     ∃ pre post,
       precompute net (PetriNet.transitions net) ∅ ∅ = Ok (pre, post) ∧
       ∀ tid P Q, pre !! tid = Some P → post !! tid = Some Q →
         (∀ p, p ∈ P →
            ∃ aid arc, dict_get (PetriNet.arcs net) aid = Some arc ∧
              Arc.source arc = p ∧ Arc.target arc = tid ∧
              p ∈ dict_keys (PetriNet.places net) ∧
              tid ∈ dict_keys (PetriNet.transitions net) ∧
              tid ∉ dict_keys (PetriNet.places net)) ∧
         (∀ p, p ∈ Q →
            ∃ aid arc, dict_get (PetriNet.arcs net) aid = Some arc ∧
              Arc.source arc = tid ∧ Arc.target arc = p ∧
              p ∈ dict_keys (PetriNet.places net) ∧
              tid ∈ dict_keys (PetriNet.transitions net) ∧
              tid ∉ dict_keys (PetriNet.places net))).
Proof.
  split; [apply precompute_values|].
  intros root require_1safe net Hok.
  destruct (proj1 (parsePNML_Ok root require_1safe net) Hok) as (Hb & _ & _).
  destruct (precompute_total net (build_net_arcs_resolve root net Hb))
    as (pre & post & Hpc).
  exists pre, post. split; [done|]. intros tid P Q HP HQ.
  destruct (precompute_values net pre post tid P Q Hpc HP HQ)
    as (t & Hin & HPs & HQs).
  destruct (build_net_Ok root net Hb) as (_ & _ & Hnd & Hl).
  destruct (Hl tid t Hin) as [Hi Ho].
  assert (tid ∈ dict_keys (PetriNet.transitions net)) as Htid
    by (apply elem_of_dict_keys; eauto).
  split; intros p Hp.
  - apply HPs in Hp as (aid & arc & Ha & Hget & Hsrc & Hpl).
    destruct (Hi aid Ha) as (arc' & Harc' & Htgt & Hm).
    apply (dict_get_elem_of _ _ _ Hnd) in Harc'.
    rewrite Hget in Harc'. injection Harc' as <-.
    exists aid, arc. split_and!; [done..|]. by apply dict_mem_false.
  - apply HQs in Hp as (aid & arc & Ha & Hget & Htgt & Hpl).
    destruct (Ho aid Ha) as (arc' & Harc' & Hsrc & Hm).
    apply (dict_get_elem_of _ _ _ Hnd) in Harc'.
    rewrite Hget in Harc'. injection Harc' as <-.
    exists aid, arc. split_and!; [done..|]. by apply dict_mem_false.
Qed.

(** * Further properties of the explorer *)

Lemma reachable_tids_ext pre post (tids tids' : list string) M0 M :
  (∀ tid, tid ∈ tids ↔ tid ∈ tids') →
  reachable pre post tids M0 M → reachable pre post tids' M0 M.
Proof.
  intros Hext. apply rtc_subrel. intros M1 M2 (tid & Hin & Hs).
  exists tid. split; [by apply Hext|done].
Qed.

(** The sequence that the explorer returns holds exactly the markings that
    can be reached from the initial marking by firing enabled transitions
    of the net, one after the other. *)
Theorem reachable_markings_exact net dfs pre post :
  precompute net (PetriNet.transitions net) ∅ ∅ = Ok (pre, post) →
  ∃ ms, compute_reachable_markings net dfs = Some (Ok ms) ∧
    ∀ M, M ∈ ms ↔
         reachable pre post (dict_keys (PetriNet.transitions net))
                   (initial_marking_of net) M.
Proof.
  intros Hpc.
  destruct (compute_reachable_markings_fuel_correct net dfs pre post
              (enough_fuel net) Hpc) as (ms & Hc & _ & Hms); [done|].
  exists ms. split; [done|]. intros M. rewrite Hms. split.
  - apply reachable_tids_ext. intros tid. apply elem_of_sorted.
  - apply reachable_tids_ext. intros tid. by rewrite elem_of_sorted.
Qed.

Lemma reachable_markings_exact_witness :
  precompute cycle_net (PetriNet.transitions cycle_net) ∅ ∅
  = Ok (cycle_pre, cycle_post) ∧
  ∃ ms, compute_reachable_markings cycle_net true = Some (Ok ms) ∧
    ∀ M, M ∈ ms ↔
         reachable cycle_pre cycle_post
                   (dict_keys (PetriNet.transitions cycle_net))
                   (initial_marking_of cycle_net) M.
Proof.
  split; [exact cycle_net_precompute|].
  apply (reachable_markings_exact cycle_net true cycle_pre cycle_post).
  exact cycle_net_precompute.
Defined.

Lemma explore_prefix pre post dfs tids (fuel : nat) :
  ∀ st ms, explore pre post fuel dfs tids st = Some (Ok ms) →
           reachable_markings st `prefix_of` ms.
Proof.
  induction fuel as [|fuel IH]; intros st ms; simpl; [done|].
  destruct (pop dfs (container st)) as [[M rest]|].
  - destruct (decide (M ∈ visited st)).
    + intros Hrec. by apply IH in Hrec.
    + destruct (expand pre post _ M tids rest) as [c|]; [|done].
      intros Hrec. apply IH in Hrec. simpl in Hrec.
      etrans; [|done]. by apply prefix_app_r.
  - by intros [= <-].
Qed.

Lemma compute_reachable_markings_head net dfs ms :
  compute_reachable_markings net dfs = Some (Ok ms) →
  head ms = Some (initial_marking_of net).
Proof.
  unfold compute_reachable_markings, compute_reachable_markings_fuel.
  destruct (precompute net (PetriNet.transitions net) ∅ ∅) as [[pre post]|];
    [|done].
  destruct (enough_fuel net) as [|fuel]; [done|].
  assert (pop dfs [initial_marking_of net] = Some (initial_marking_of net, []))
    as Hpop by (by destruct dfs).
  simpl. rewrite Hpop. rewrite decide_False by apply not_elem_of_empty.
  destruct (expand pre post _ _ _ []) as [c|]; [|done].
  intros [l ->]%explore_prefix. done.
Qed.

(** Whenever the explorer returns a sequence, the initial marking is its
    first element, in both modes. *)
Theorem first_marking_is_initial net dfs ms :
  compute_reachable_markings net dfs = Some (Ok ms) →
  head ms = Some (initial_marking_of net).
Proof. apply compute_reachable_markings_head. Qed.

Lemma first_marking_is_initial_witness :
  compute_reachable_markings cycle_net true
  = Some (Ok [{[ "p1" ]}; {[ "p2" ]}]) ∧
  head [({[ "p1" ]} : marking); {[ "p2" ]}]
  = Some (initial_marking_of cycle_net).
Proof.
  split; [exact cycle_net_dfs|].
  apply (first_marking_is_initial cycle_net true). exact cycle_net_dfs.
Defined.

(** A net without transitions has exactly one reachable marking, the
    initial one. *)
Theorem no_transitions_single_marking net dfs :
  PetriNet.transitions net = [] →
  compute_reachable_markings net dfs = Some (Ok [initial_marking_of net]).
Proof.
  intros Hnil.
  unfold compute_reachable_markings, compute_reachable_markings_fuel.
  rewrite Hnil. simpl.
  apply explore_fuel_mono with (fuel := 2).
  - unfold enough_fuel. lia.
  - assert (pop dfs [initial_marking_of net] = Some (initial_marking_of net, []))
      as Hpop by (by destruct dfs).
    change (sorted (dict_keys [])) with (@nil string).
    simpl. rewrite Hpop. rewrite decide_False by apply not_elem_of_empty.
    simpl. by destruct dfs.
Qed.

Lemma no_transitions_single_marking_witness :
  PetriNet.transitions still_net = [] ∧
  compute_reachable_markings still_net false
  = Some (Ok [initial_marking_of still_net]).
Proof.
  split; [reflexivity|].
  apply (no_transitions_single_marking still_net false). reflexivity.
Defined.

Lemma add_endpoints_Ok_resolve net endpoint aids acc S :
  add_endpoints net endpoint aids acc = Ok S →
  ∀ aid, aid ∈ aids → is_Some (dict_get (PetriNet.arcs net) aid).
Proof.
  revert acc. induction aids as [|a aids IH]; intros acc; simpl.
  - by intros _ ? ?%elem_of_nil.
  - unfold dict_getitem.
    destruct (dict_get (PetriNet.arcs net) a) as [arc|] eqn:Ha; simpl; [|done].
    intros Hrec aid [->|Hin]%elem_of_cons; [by rewrite Ha|].
    destruct (dict_mem _ _); by apply (IH _ Hrec).
Qed.

Lemma precompute_Ok_resolve net items pre post r :
  precompute net items pre post = Ok r →
  ∀ tid t aid, (tid, t) ∈ items →
    aid ∈ Transition.incoming t ++ Transition.outgoing t →
    is_Some (dict_get (PetriNet.arcs net) aid).
Proof.
  revert pre post. induction items as [|[tid' t'] items IH]; intros pre post; simpl.
  - by intros _ ??? ?%elem_of_nil.
  - destruct (add_endpoints net Arc.source _ ∅) as [P|] eqn:HP; simpl; [|done].
    destruct (add_endpoints net Arc.target _ ∅) as [Q|] eqn:HQ; simpl; [|done].
    intros Hrec tid t aid [[= -> ->]|Hin]%elem_of_cons Haid;
      [|by apply (IH _ _ Hrec tid t)].
    apply elem_of_app in Haid as [?|?].
    + by apply (add_endpoints_Ok_resolve _ _ _ _ _ HP).
    + by apply (add_endpoints_Ok_resolve _ _ _ _ _ HQ).
Qed.

(** The explorer returns a sequence exactly when every arc id listed by a
    transition is an arc of the net.  Otherwise it raises [KeyError] for
    such an id, before any marking is explored and so in both modes. *)
Theorem explorer_key_error net dfs :
  (arcs_resolve net ↔ ∃ ms, compute_reachable_markings net dfs = Some (Ok ms)) ∧
  (∀ e, compute_reachable_markings net dfs = Some (Raise e) →
     compute_reachable_markings net (negb dfs) = Some (Raise e) ∧
     ∃ tid t aid, (tid, t) ∈ PetriNet.transitions net ∧
       aid ∈ Transition.incoming t ++ Transition.outgoing t ∧
       dict_get (PetriNet.arcs net) aid = None ∧ e = KeyError aid).
Proof.
  split.
  - split.
    + intros Hres. destruct (precompute_total net Hres) as (pre & post & Hpc).
      destruct (compute_reachable_markings_fuel_correct net dfs pre post
                  (enough_fuel net) Hpc) as (ms & Hc & _); [done|].
      by exists ms.
    + intros [ms Hc] tid t aid Hin Haid.
      unfold compute_reachable_markings, compute_reachable_markings_fuel in Hc.
      destruct (precompute net (PetriNet.transitions net) ∅ ∅) as [r|] eqn:Hpc;
        [|done].
      by apply (precompute_Ok_resolve _ _ _ _ _ Hpc tid t).
  - intros e Hc. unfold compute_reachable_markings in *.
    destruct (precompute net (PetriNet.transitions net) ∅ ∅)
      as [[pre post]|e'] eqn:Hpc.
    + destruct (compute_reachable_markings_fuel_correct net dfs pre post
                  (enough_fuel net) Hpc) as (ms & Hc' & _); [done|]. congruence.
    + rewrite (compute_reachable_markings_fuel_Raise _ _ _ _ Hpc) in Hc.
      injection Hc as <-.
      split; [by apply compute_reachable_markings_fuel_Raise|].
      by apply (precompute_Raise _ _ _ _ _ Hpc).
Qed.

Lemma dangling_net_key_error :
  compute_reachable_markings dangling_net false = Some (Raise (KeyError "a9")) ∧
  compute_reachable_markings dangling_net true = Some (Raise (KeyError "a9")).
Proof. split; vm_compute; reflexivity. Qed.

Lemma move_doc_parsed : parsePNML move_doc true = Ok move_net.
Proof. vm_compute. reflexivity. Qed.

(** A net returned by [parsePNML] is explored without error: in both
    modes the explorer returns a sequence, which starts with the initial
    marking. *)
Theorem parsed_net_explores `{StrBuiltins} root require_1safe net dfs :
  parsePNML root require_1safe = Ok net →
  ∃ ms, compute_reachable_markings net dfs = Some (Ok ms) ∧
        head ms = Some (initial_marking_of net).
Proof.
  intros (Hb & _)%parsePNML_Ok.
  destruct (precompute_total net (build_net_arcs_resolve root net Hb))
    as (pre & post & Hpc).
  destruct (compute_reachable_markings_fuel_correct net dfs pre post
              (enough_fuel net) Hpc) as (ms & Hc & _); [done|].
  exists ms. split; [done|]. by eapply compute_reachable_markings_head.
Qed.

Lemma parsed_net_explores_witness :
  parsePNML move_doc true = Ok move_net ∧
  ∃ ms, compute_reachable_markings move_net false = Some (Ok ms) ∧
        head ms = Some (initial_marking_of move_net).
Proof.
  split; [exact move_doc_parsed|].
  apply (parsed_net_explores move_doc true move_net false).
  exact move_doc_parsed.
Defined.

(** Scenario A: the token of [move_doc] moves from [p1] to [p2]. *)
Lemma move_net_bfs :
  compute_reachable_markings move_net false
  = Some (Ok [{[ "p1" ]}; {[ "p2" ]}]).
Proof. vm_compute. reflexivity. Qed.

(** * Further properties of the parser *)

Lemma for_each_Forall {A S : Type} (body : A → S → result S)
    (P : S → Prop) (Q : A → Prop) (l : list A) (s s' : S) :
  (∀ x s1 s2, P s1 → body x s1 = Ok s2 → P s2 ∧ Q x) →
  P s → for_each body l s = Ok s' → P s' ∧ Forall Q l.
Proof.
  intros Hstep. revert s. induction l as [|x l IH]; intros s Hs; simpl.
  - intros [= <-]. by split.
  - destruct (body x s) as [s1|] eqn:Hb; simpl; [|done].
    destruct (Hstep x s s1 Hs Hb) as [Hs1 Hx].
    intros Hrec. destruct (IH s1 Hs1 Hrec) as [? ?]. split; [done|].
    by constructor.
Qed.

Lemma keyed_snoc {V} (id : V → string) (d : list (string * V)) k v :
  keyed id d → id v = k → keyed id (d ++ [(k, v)]).
Proof.
  intros Hd Hv k' v' [?|[= -> ->]%list_elem_of_singleton]%elem_of_app; auto.
Qed.

Lemma keyed_update {V} (id : V → string) (d : list (string * V)) k f :
  keyed id d → (∀ v, id (f v) = id v) → keyed id (dict_update k f d).
Proof.
  intros Hd Hf k' v' [?|(-> & v & Hin & ->)]%elem_of_dict_update; [auto|].
  rewrite Hf. auto.
Qed.

Section ParsedNet.
Context `{StrBuiltins}.

Lemma link_arc_keyed item places transitions places' transitions' :
  link_arc item (places, transitions) = Ok (places', transitions') →
  keyed Place.id places ∧ keyed Transition.id transitions →
  keyed Place.id places' ∧ keyed Transition.id transitions'.
Proof.
  destruct item as [aid arc]. simpl.
  destruct (negb (node_exists places transitions (Arc.source arc))); [done|].
  destruct (negb (node_exists places transitions (Arc.target arc))); [done|].
  intros Hr [Hp Ht].
  destruct (dict_mem (Arc.source arc) places);
    destruct (dict_mem (Arc.target arc) _);
    injection Hr as <- <-; split; repeat apply keyed_update; done.
Qed.

(** In the built net every place, transition and arc is stored under its
    own id. *)
Lemma build_net_keyed root net :
  build_net root = Ok net →
  keyed Place.id (PetriNet.places net) ∧
  keyed Transition.id (PetriNet.transitions net) ∧
  keyed Arc.id (PetriNet.arcs net).
Proof.
  unfold build_net.
  destruct (find_net _) as [net_elem|]; [|done].
  destruct (for_each parse_place _ _) as [places|] eqn:Hp; simpl; [|done].
  destruct (for_each parse_transition _ _) as [transitions|] eqn:Ht; simpl; [|done].
  destruct (for_each parse_arc _ _) as [arcs|] eqn:Ha; simpl; [|done].
  destruct (for_each link_arc _ _) as [[places' transitions']|] eqn:Hl; simpl; [|done].
  intros [= <-]. simpl.
  assert (keyed Place.id places) as Hkp.
  { revert Hp. apply (for_each_invariant parse_place (keyed Place.id)).
    - intros p s1 s2 _ Hk (pid & _ & _ & ->)%parse_place_Ok.
      by apply keyed_snoc.
    - by intros ?? ?%elem_of_nil. }
  assert (keyed Transition.id transitions) as Hkt.
  { revert Ht. apply (for_each_invariant parse_transition (keyed Transition.id)).
    - intros p s1 s2 _ Hk (pid & _ & _ & ->)%parse_transition_Ok.
      by apply keyed_snoc.
    - by intros ?? ?%elem_of_nil. }
  assert (keyed Arc.id arcs) as Hka.
  { revert Ha. apply (for_each_invariant parse_arc (keyed Arc.id)).
    - intros p s1 s2 _ Hk (aid & ? & ? & _ & _ & _ & _ & _ & ->)%parse_arc_Ok.
      by apply keyed_snoc.
    - by intros ?? ?%elem_of_nil. }
  split_and!; [| |done].
  - revert Hl. apply (for_each_invariant link_arc
      (λ s, keyed Place.id s.1 ∧ keyed Transition.id s.2) arcs
      (places, transitions) (places', transitions')); [|done].
    intros item [p1 t1] [p2 t2] _ Hk Hstep. by eapply link_arc_keyed.
  - revert Hl. apply (for_each_invariant link_arc
      (λ s, keyed Place.id s.1 ∧ keyed Transition.id s.2) arcs
      (places, transitions) (places', transitions')); [|done].
    intros item [p1 t1] [p2 t2] _ Hk Hstep. by eapply link_arc_keyed.
Qed.
End ParsedNet.

(** A returned net mirrors the document: its places, transitions and arcs
    are the [<place>], [<transition>] and [<arc>] children of the net
    element, in document order, each stored under its id attribute; no id
    occurs twice among the places, among the transitions or among the
    arcs; and every record carries the id it is stored under. *)
Theorem parsed_net_mirrors_document `{StrBuiltins} root require_1safe net :
  parsePNML root require_1safe = Ok net →
  (∃ net_elem,
     find_net (strip_namespace root) = Some net_elem ∧
     PetriNet.id net = get net_elem "id" ∧
     Some <$> dict_keys (PetriNet.places net)
       = (λ e, get e "id") <$> findall net_elem "place" ∧
     Some <$> dict_keys (PetriNet.transitions net)
       = (λ e, get e "id") <$> findall net_elem "transition" ∧
     Some <$> dict_keys (PetriNet.arcs net)
       = (λ e, get e "id") <$> findall net_elem "arc") ∧
  NoDup (dict_keys (PetriNet.places net)) ∧
  NoDup (dict_keys (PetriNet.transitions net)) ∧
  NoDup (dict_keys (PetriNet.arcs net)) ∧
  keyed Place.id (PetriNet.places net) ∧
  keyed Transition.id (PetriNet.transitions net) ∧
  keyed Arc.id (PetriNet.arcs net).
Proof.
  intros (Hb & _)%parsePNML_Ok.
  destruct (build_net_Ok root net Hb) as (? & ? & ? & _).
  destruct (build_net_keyed root net Hb) as (? & ? & ?).
  split_and!; [by apply build_net_keys|done..].
Qed.

Lemma parsed_net_mirrors_document_witness :
  parsePNML move_doc true = Ok move_net ∧
  NoDup (dict_keys (PetriNet.arcs move_net)) ∧
  keyed Arc.id (PetriNet.arcs move_net).
Proof.
  split; [exact move_doc_parsed|].
  destruct (parsed_net_mirrors_document move_doc true move_net move_doc_parsed)
    as (_ & _ & _ & Hnd & _ & _ & Hk).
  by split.
Defined.

Lemma dict_mem_keys {V W} (d : list (string * V)) (d' : list (string * W)) k :
  dict_keys d = dict_keys d' → dict_mem k d = dict_mem k d'.
Proof.
  intros Hk. destruct (dict_mem k d') eqn:Hm.
  - apply dict_mem_true. rewrite Hk. by apply dict_mem_true.
  - apply dict_mem_false. rewrite Hk. by apply dict_mem_false.
Qed.

Lemma node_exists_keys places transitions places' transitions' k :
  dict_keys places = dict_keys places' →
  dict_keys transitions = dict_keys transitions' →
  node_exists places transitions k = node_exists places' transitions' k.
Proof.
  intros Hp Ht. unfold node_exists.
  by rewrite (dict_mem_keys places places' k Hp),
    (dict_mem_keys transitions transitions' k Ht).
Qed.

Section ParsedArcs.
Context `{StrBuiltins}.

Lemma build_net_endpoints root net aid arc :
  build_net root = Ok net → (aid, arc) ∈ PetriNet.arcs net →
  node_exists (PetriNet.places net) (PetriNet.transitions net)
              (Arc.source arc) = true ∧
  node_exists (PetriNet.places net) (PetriNet.transitions net)
              (Arc.target arc) = true.
Proof.
  unfold build_net.
  destruct (find_net _) as [net_elem|]; [|done].
  destruct (for_each parse_place _ _) as [places|] eqn:Hp; simpl; [|done].
  destruct (for_each parse_transition _ _) as [transitions|] eqn:Ht; simpl; [|done].
  destruct (for_each parse_arc _ _) as [arcs|] eqn:Ha; simpl; [|done].
  destruct (for_each link_arc _ _) as [[places' transitions']|] eqn:Hl; simpl; [|done].
  intros [= <-]. simpl. intros Hin.
  destruct (for_each_Forall link_arc
    (λ s, dict_keys s.1 = dict_keys places ∧ dict_keys s.2 = dict_keys transitions)
    (λ item, node_exists places transitions (Arc.source item.2) = true ∧
             node_exists places transitions (Arc.target item.2) = true)
    arcs (places, transitions) (places', transitions')) as [[Hk1 Hk2] Hall];
    [|done..|].
  - intros [aid' arc'] [p1 t1] [p2 t2] [Hk1 Hk2] Hstep.
    destruct (link_arc_Ok [] _ _ _ _ _ Hstep) as (Hk1' & Hk2' & _).
    cbn [fst snd] in *. split; [split; congruence|].
    rewrite <-(node_exists_keys p1 t1 places transitions (Arc.source arc')),
      <-(node_exists_keys p1 t1 places transitions (Arc.target arc')) by done.
    unfold link_arc in Hstep.
    destruct (node_exists p1 t1 (Arc.source arc')); [|done].
    by destruct (node_exists p1 t1 (Arc.target arc')).
  - cbn [fst snd] in *. rewrite Forall_forall in Hall.
    destruct (Hall _ Hin) as [Hs Ht']. cbn [fst snd] in *.
    by rewrite !(node_exists_keys places' transitions' places transitions).
Qed.

Lemma build_net_weights root net aid arc :
  build_net root = Ok net → (aid, arc) ∈ PetriNet.arcs net →
  (0 < Arc.weight arc)%Z.
Proof.
  unfold build_net.
  destruct (find_net _) as [net_elem|]; [|done].
  destruct (for_each parse_place _ _) as [places|] eqn:Hp; simpl; [|done].
  destruct (for_each parse_transition _ _) as [transitions|] eqn:Ht; simpl; [|done].
  destruct (for_each parse_arc _ _) as [arcs|] eqn:Ha; simpl; [|done].
  destruct (for_each link_arc _ _) as [nodes|] eqn:Hl; simpl; [|done].
  intros [= <-]. simpl. revert aid arc. revert Ha.
  apply (for_each_invariant parse_arc
           (λ s, ∀ aid arc, (aid, arc) ∈ s → (0 < Arc.weight arc)%Z)).
  - intros a s1 s2 _ Hs (aid' & src & tgt & _ & _ & _ & _ & Hw & ->)%parse_arc_Ok.
    intros aid arc [?|[= -> ->]%list_elem_of_singleton]%elem_of_app; [eauto|done].
  - by intros ?? ?%elem_of_nil.
Qed.
End ParsedArcs.

(** In a returned net both endpoints of every arc are ids of a place or of
    a transition, and every weight is positive.  With [require_1safe] every
    place starts with 0 or 1 tokens and every weight is 1. *)
Theorem parsed_net_is_valid `{StrBuiltins} root require_1safe net :
  parsePNML root require_1safe = Ok net →
  (∀ aid arc, (aid, arc) ∈ PetriNet.arcs net →
     node_exists (PetriNet.places net) (PetriNet.transitions net)
                 (Arc.source arc) = true ∧
     node_exists (PetriNet.places net) (PetriNet.transitions net)
                 (Arc.target arc) = true ∧
     (0 < Arc.weight arc)%Z) ∧
  (require_1safe = true →
     (∀ pid p, (pid, p) ∈ PetriNet.places net →
        Place.initial_marking p = 0%Z ∨ Place.initial_marking p = 1%Z) ∧
     (∀ aid arc, (aid, arc) ∈ PetriNet.arcs net → Arc.weight arc = 1%Z)).
Proof.
  intros (Hb & _ & Hsafe)%parsePNML_Ok. split.
  - intros aid arc Hin.
    destruct (build_net_endpoints root net aid arc Hb Hin) as [? ?].
    split_and!; [done..|]. by eapply build_net_weights.
  - intros Hflag. destruct (Hsafe Hflag) as [Hbad Hheavy]. split.
    + intros pid p Hin.
      destruct (decide (Place.initial_marking p = 0%Z)) as [|H0]; [by left|].
      destruct (decide (Place.initial_marking p = 1%Z)) as [|H1]; [by right|].
      assert ((pid, Place.initial_marking p) ∈ bad_markings (PetriNet.places net))
        as Hx by (apply elem_of_bad_markings; by exists p).
      rewrite Hbad in Hx. by apply elem_of_nil in Hx.
    + intros aid arc Hin.
      destruct (decide (Arc.weight arc = 1%Z)) as [|Hw]; [done|].
      assert (aid ∈ heavy_arcs (PetriNet.arcs net))
        as Hx by (apply elem_of_heavy_arcs; by exists arc).
      rewrite Hheavy in Hx. by apply elem_of_nil in Hx.
Qed.

Lemma parsed_net_is_valid_witness :
  parsePNML move_doc true = Ok move_net ∧
  (∀ aid arc, (aid, arc) ∈ PetriNet.arcs move_net → Arc.weight arc = 1%Z).
Proof.
  split; [exact move_doc_parsed|].
  destruct (parsed_net_is_valid move_doc true move_net move_doc_parsed)
    as [_ Hsafe].
  by destruct (Hsafe eq_refl).
Defined.

(** The check for 1-safeness only adds failures: what passes with the
    check passes without it with the same net, what fails without it fails
    with it in the same way, and what passes only without it fails with it
    for its markings or its weights. *)
Theorem require_1safe_only_restricts `{StrBuiltins} root :
  (∀ net, parsePNML root true = Ok net → parsePNML root false = Ok net) ∧
  (∀ e, parsePNML root false = Raise e → parsePNML root true = Raise e) ∧
  (∀ net, parsePNML root false = Ok net →
     parsePNML root true = Ok net ∨
     parsePNML root true
       = Raise (NonBinaryMarkings (bad_markings (PetriNet.places net))) ∨
     parsePNML root true
       = Raise (HeavyArcs (heavy_arcs (PetriNet.arcs net)))).
Proof.
  split_and!.
  - intros net (? & ? & _)%parsePNML_Ok. by apply parsePNML_Ok.
  - intros e [Hb|(net & Hb & Hcase)]%parsePNML_Raise; apply parsePNML_Raise;
      [by left|].
    right. exists net. split; [done|].
    by destruct Hcase as [[? ?]|(_ & ? & _)]; [left|].
  - intros net (Hb & Hi & _)%parsePNML_Ok.
    destruct (bad_markings (PetriNet.places net)) as [|b bs] eqn:Hbad.
    + destruct (heavy_arcs (PetriNet.arcs net)) as [|h hs] eqn:Hh.
      * left. apply parsePNML_Ok. by rewrite Hbad, Hh.
      * right. right. apply parsePNML_Raise. right. exists net.
        split; [done|]. right. split_and!; [done..|].
        right. by rewrite Hbad, Hh.
    + right. left. apply parsePNML_Raise. right. exists net.
      split; [done|]. right. split_and!; [done..|].
      left. by rewrite Hbad.
Qed.

(** ** Arcs and the lists of their nodes *)

Lemma dict_get_update {V} (d : list (string * V)) k f k' :
  dict_get (dict_update k f d) k'
  = if decide (k = k') then f <$> dict_get d k' else dict_get d k'.
Proof.
  induction d as [|[k0 v0] d IH]; simpl.
  - by destruct (decide (k = k')).
  - destruct (decide (k0 = k)) as [->|Hne]; simpl.
    + destruct (decide (k = k')) as [->|?]; simpl; [done|].
      destruct (decide (k = k')); done.
    + destruct (decide (k0 = k')) as [->|?]; simpl; [|done].
      destruct (decide (k = k')); done.
Qed.

Lemma concat_update_same {V} (g : V → list string) (d : list (string * V)) k f :
  (∀ v, g (f v) = g v) →
  concat (g <$> (dict_update k f d).*2) = concat (g <$> d.*2).
Proof.
  intros Hg. induction d as [|[k0 v0] d IH]; csimpl; [done|].
  destruct (decide (k0 = k)); csimpl; [by rewrite Hg|by rewrite IH].
Qed.

Lemma concat_update_snoc {V} (g : V → list string) (d : list (string * V))
    k f a :
  (∀ v, g (f v) = g v ++ [a]) → dict_mem k d = true →
  concat (g <$> (dict_update k f d).*2) ≡ₚ a :: concat (g <$> d.*2).
Proof.
  intros Hg. induction d as [|[k0 v0] d IH]; csimpl.
  - by intros ?%dict_mem_true%elem_of_nil.
  - intros Hm. destruct (decide (k0 = k)) as [->|Hne]; csimpl.
    + rewrite Hg, <-(assoc_L (++)). simpl.
      by rewrite <-Permutation_middle.
    + rewrite IH.
      * by rewrite <-Permutation_middle.
      * apply dict_mem_true. apply dict_mem_true in Hm.
        unfold dict_keys in *. csimpl in Hm.
        by apply elem_of_cons in Hm as [?|?].
Qed.

(** One arc attached: its id is added once to the outgoing lists and once
    to the incoming lists. *)
Lemma link_arc_lists aid arc places transitions places' transitions' :
  link_arc (aid, arc) (places, transitions) = Ok (places', transitions') →
  all_outgoing places' transitions' ≡ₚ aid :: all_outgoing places transitions ∧
  all_incoming places' transitions' ≡ₚ aid :: all_incoming places transitions.
Proof.
  simpl. unfold node_exists.
  destruct (dict_mem (Arc.source arc) places) eqn:Hsp; simpl.
  - destruct (dict_mem (Arc.target arc) places) eqn:Htp; simpl.
    + rewrite dict_mem_update, Htp. intros [= <- <-].
      unfold all_outgoing, all_incoming. split.
      * rewrite (concat_update_same Place.outgoing) by done.
        rewrite (concat_update_snoc Place.outgoing _ _ _ aid) by done. done.
      * rewrite (concat_update_snoc Place.incoming _ _ _ aid);
          [|done|by rewrite dict_mem_update].
        by rewrite (concat_update_same Place.incoming).
    + destruct (dict_mem (Arc.target arc) transitions) eqn:Htt; simpl; [|done].
      rewrite dict_mem_update, Htp. intros [= <- <-].
      unfold all_outgoing, all_incoming. split.
      * rewrite (concat_update_snoc Place.outgoing _ _ _ aid) by done.
        by rewrite (concat_update_same Transition.outgoing).
      * rewrite (concat_update_same Place.incoming) by done.
        rewrite (concat_update_snoc Transition.incoming _ _ _ aid) by done.
        by rewrite <-Permutation_middle.
  - destruct (dict_mem (Arc.source arc) transitions) eqn:Hst; simpl; [|done].
    destruct (dict_mem (Arc.target arc) places) eqn:Htp; simpl.
    + intros [= <- <-]. unfold all_outgoing, all_incoming. split.
      * rewrite (concat_update_same Place.outgoing) by done.
        rewrite (concat_update_snoc Transition.outgoing _ _ _ aid) by done.
        by rewrite <-Permutation_middle.
      * rewrite (concat_update_snoc Place.incoming _ _ _ aid) by done.
        by rewrite (concat_update_same Transition.incoming).
    + destruct (dict_mem (Arc.target arc) transitions) eqn:Htt; simpl; [|done].
      intros [= <- <-]. unfold all_outgoing, all_incoming. split.
      * rewrite (concat_update_same Transition.outgoing) by done.
        rewrite (concat_update_snoc Transition.outgoing _ _ _ aid) by done.
        by rewrite <-Permutation_middle.
      * rewrite (concat_update_snoc Transition.incoming _ _ _ aid);
          [|done|by rewrite dict_mem_update].
        rewrite (concat_update_same Transition.incoming) by done.
        by rewrite <-Permutation_middle.
Qed.

Lemma lists_grow_refl s : lists_grow s s.
Proof. intros k. split; intros l Hl; exists l; by split. Qed.

Lemma lists_grow_trans s1 s2 s3 :
  lists_grow s1 s2 → lists_grow s2 s3 → lists_grow s1 s3.
Proof.
  intros H12 H23 k. destruct (H12 k) as [Ho12 Hi12], (H23 k) as [Ho23 Hi23].
  split; intros l Hl.
  - destruct (Ho12 l Hl) as (l' & Hl' & ?).
    destruct (Ho23 l' Hl') as (l'' & ? & ?). exists l''. split; [done|].
    by etrans.
  - destruct (Hi12 l Hl) as (l' & Hl' & ?).
    destruct (Hi23 l' Hl') as (l'' & ? & ?). exists l''. split; [done|].
    by etrans.
Qed.

Lemma lists_grow_update_place places transitions k f :
  (∀ p, Place.outgoing p ⊆ Place.outgoing (f p) ∧
        Place.incoming p ⊆ Place.incoming (f p)) →
  lists_grow (places, transitions) (dict_update k f places, transitions).
Proof.
  intros Hf k'. unfold node_outgoing, node_incoming. simpl.
  rewrite dict_get_update.
  destruct (decide (k = k')) as [->|?]; [|split; intros l Hl; by exists l].
  destruct (dict_get places k') as [p|]; simpl.
  - split; intros l [= <-]; eexists; (split; [done|]); apply Hf.
  - split; intros l Hl; by exists l.
Qed.

Lemma lists_grow_update_transition places transitions k f :
  (∀ t, Transition.outgoing t ⊆ Transition.outgoing (f t) ∧
        Transition.incoming t ⊆ Transition.incoming (f t)) →
  lists_grow (places, transitions) (places, dict_update k f transitions).
Proof.
  intros Hf k'. unfold node_outgoing, node_incoming. simpl.
  rewrite dict_get_update.
  destruct (dict_get places k') as [p|]; [split; intros l Hl; by exists l|].
  destruct (decide (k = k')) as [->|?]; [|split; intros l Hl; by exists l].
  destruct (dict_get transitions k') as [t|]; simpl; [|done].
  split; intros l [= <-]; eexists; (split; [done|]); apply Hf.
Qed.

Lemma dict_mem_get {V} (d : list (string * V)) k :
  dict_mem k d = true → ∃ v, dict_get d k = Some v.
Proof. unfold dict_mem. rewrite bool_decide_eq_true. by intros [v ?]; exists v. Qed.

Lemma dict_mem_get_None {V} (d : list (string * V)) k :
  dict_mem k d = false → dict_get d k = None.
Proof.
  unfold dict_mem. rewrite bool_decide_eq_false.
  destruct (dict_get d k); [intros []; eauto|done].
Qed.

(** After an arc was attached, its source lists it as outgoing, its target
    lists it as incoming, and no list lost an entry. *)
Lemma link_arc_attach aid arc places transitions places' transitions' :
  link_arc (aid, arc) (places, transitions) = Ok (places', transitions') →
  lists_grow (places, transitions) (places', transitions') ∧
  (∃ l, node_outgoing places' transitions' (Arc.source arc) = Some l ∧ aid ∈ l) ∧
  (∃ l, node_incoming places' transitions' (Arc.target arc) = Some l ∧ aid ∈ l).
Proof.
  simpl. unfold node_exists.
  assert (∀ p, Place.outgoing p ⊆ Place.outgoing (add_outgoing_place aid p) ∧
               Place.incoming p ⊆ Place.incoming (add_outgoing_place aid p))
    as Hop by (intros p; split; simpl; [by apply list_subseteq_app_l|done]).
  assert (∀ p, Place.outgoing p ⊆ Place.outgoing (add_incoming_place aid p) ∧
               Place.incoming p ⊆ Place.incoming (add_incoming_place aid p))
    as Hip by (intros p; split; simpl; [done|by apply list_subseteq_app_l]).
  assert (∀ t, Transition.outgoing t
                 ⊆ Transition.outgoing (add_outgoing_transition aid t) ∧
               Transition.incoming t
                 ⊆ Transition.incoming (add_outgoing_transition aid t))
    as Hot by (intros t; split; simpl; [by apply list_subseteq_app_l|done]).
  assert (∀ t, Transition.outgoing t
                 ⊆ Transition.outgoing (add_incoming_transition aid t) ∧
               Transition.incoming t
                 ⊆ Transition.incoming (add_incoming_transition aid t))
    as Hit by (intros t; split; simpl; [done|by apply list_subseteq_app_l]).
  set (s0 := (places, transitions)).
  destruct (dict_mem (Arc.source arc) places) eqn:Hsp; simpl.
  - set (s1 := (dict_update (Arc.source arc) (add_outgoing_place aid) places,
                transitions)).
    assert (lists_grow s0 s1) as H01 by (by apply lists_grow_update_place).
    assert (∃ l, node_outgoing s1.1 s1.2 (Arc.source arc) = Some l ∧ aid ∈ l)
      as Hout.
    { destruct (dict_mem_get _ _ Hsp) as [p Hp]. unfold node_outgoing. simpl.
      rewrite dict_get_update, decide_True, Hp by done. simpl.
      eexists. split; [done|]. apply elem_of_app. right. by left. }
    destruct (dict_mem (Arc.target arc) places) eqn:Htp; simpl.
    + rewrite dict_mem_update, Htp. intros [= <- <-].
      set (s2 := (dict_update (Arc.target arc) (add_incoming_place aid) s1.1,
                  transitions)).
      assert (lists_grow s1 s2) as H12 by (by apply lists_grow_update_place).
      split_and!.
      * by apply lists_grow_trans with s1.
      * destruct Hout as (l & Hl & ?).
        destruct (proj1 (H12 (Arc.source arc)) l Hl) as (l' & ? & Hsub).
        exists l'. split; [done|]. by apply Hsub.
      * assert (dict_mem (Arc.target arc) s1.1 = true) as Hm
          by (by simpl; rewrite dict_mem_update).
        destruct (dict_mem_get _ _ Hm) as [p Hp]. unfold node_incoming.
        unfold s1 in Hp. cbn [fst snd] in Hp.
        rewrite dict_get_update, decide_True, Hp by done. simpl.
        eexists. split; [done|]. apply elem_of_app. right. by left.
    + destruct (dict_mem (Arc.target arc) transitions) eqn:Htt; simpl; [|done].
      rewrite dict_mem_update, Htp. intros [= <- <-].
      set (s2 := (s1.1, dict_update (Arc.target arc)
                          (add_incoming_transition aid) transitions)).
      assert (lists_grow s1 s2) as H12 by (by apply lists_grow_update_transition).
      split_and!.
      * by apply lists_grow_trans with s1.
      * destruct Hout as (l & Hl & ?).
        destruct (proj1 (H12 (Arc.source arc)) l Hl) as (l' & ? & Hsub).
        exists l'. split; [done|]. by apply Hsub.
      * destruct (dict_mem_get _ _ Htt) as [t Ht]. unfold node_incoming.
        rewrite (dict_mem_get_None (dict_update _ _ places))
          by (by rewrite dict_mem_update).
        rewrite dict_get_update, decide_True, Ht by done. simpl.
        eexists. split; [done|]. apply elem_of_app. right. by left.
  - destruct (dict_mem (Arc.source arc) transitions) eqn:Hst; simpl; [|done].
    set (s1 := (places, dict_update (Arc.source arc)
                          (add_outgoing_transition aid) transitions)).
    assert (lists_grow s0 s1) as H01 by (by apply lists_grow_update_transition).
    assert (∃ l, node_outgoing s1.1 s1.2 (Arc.source arc) = Some l ∧ aid ∈ l)
      as Hout.
    { destruct (dict_mem_get _ _ Hst) as [t Ht]. unfold node_outgoing. simpl.
      rewrite (dict_mem_get_None places) by done.
      rewrite dict_get_update, decide_True, Ht by done. simpl.
      eexists. split; [done|]. apply elem_of_app. right. by left. }
    destruct (dict_mem (Arc.target arc) places) eqn:Htp; simpl.
    + intros [= <- <-].
      set (s2 := (dict_update (Arc.target arc) (add_incoming_place aid) places,
                  s1.2)).
      assert (lists_grow s1 s2) as H12 by (by apply lists_grow_update_place).
      split_and!.
      * by apply lists_grow_trans with s1.
      * destruct Hout as (l & Hl & ?).
        destruct (proj1 (H12 (Arc.source arc)) l Hl) as (l' & ? & Hsub).
        exists l'. split; [done|]. by apply Hsub.
      * destruct (dict_mem_get _ _ Htp) as [p Hp]. unfold node_incoming.
        rewrite dict_get_update, decide_True, Hp by done. simpl.
        eexists. split; [done|]. apply elem_of_app. right. by left.
    + destruct (dict_mem (Arc.target arc) transitions) eqn:Htt; simpl; [|done].
      intros [= <- <-].
      set (s2 := (places, dict_update (Arc.target arc)
                            (add_incoming_transition aid) s1.2)).
      assert (lists_grow s1 s2) as H12 by (by apply lists_grow_update_transition).
      split_and!.
      * by apply lists_grow_trans with s1.
      * destruct Hout as (l & Hl & ?).
        destruct (proj1 (H12 (Arc.source arc)) l Hl) as (l' & ? & Hsub).
        exists l'. split; [done|]. by apply Hsub.
      * assert (dict_mem (Arc.target arc) s1.2 = true) as Hm
          by (by simpl; rewrite dict_mem_update).
        destruct (dict_mem_get _ _ Hm) as [t Ht]. unfold node_incoming.
        unfold s1 in Ht. cbn [fst snd] in Ht.
        rewrite (dict_mem_get_None places) by done.
        rewrite dict_get_update, decide_True, Ht by done. simpl.
        eexists. split; [done|]. apply elem_of_app. right. by left.
Qed.

Section Incidence.
Context `{StrBuiltins}.

Lemma parse_places_unlinked l places :
  for_each parse_place l [] = Ok places →
  concat (Place.outgoing <$> places.*2) = [] ∧
  concat (Place.incoming <$> places.*2) = [].
Proof.
  apply (for_each_invariant parse_place
           (λ s, concat (Place.outgoing <$> s.*2) = [] ∧
                 concat (Place.incoming <$> s.*2) = [])); [|done].
  intros p s1 s2 _ [Ho Hi] (pid & _ & _ & ->)%parse_place_Ok.
  rewrite !fmap_app, !concat_app, Ho, Hi. done.
Qed.

Lemma parse_transitions_unlinked l transitions :
  for_each parse_transition l [] = Ok transitions →
  concat (Transition.outgoing <$> transitions.*2) = [] ∧
  concat (Transition.incoming <$> transitions.*2) = [].
Proof.
  apply (for_each_invariant parse_transition
           (λ s, concat (Transition.outgoing <$> s.*2) = [] ∧
                 concat (Transition.incoming <$> s.*2) = [])); [|done].
  intros t s1 s2 _ [Ho Hi] (tid & _ & _ & ->)%parse_transition_Ok.
  rewrite !fmap_app, !concat_app, Ho, Hi. done.
Qed.

Lemma link_arcs_lists arcs places transitions nodes :
  for_each link_arc arcs (places, transitions) = Ok nodes →
  all_outgoing places transitions = [] →
  all_incoming places transitions = [] →
  all_outgoing nodes.1 nodes.2 ≡ₚ dict_keys arcs ∧
  all_incoming nodes.1 nodes.2 ≡ₚ dict_keys arcs ∧
  arcs_attached arcs nodes.1 nodes.2.
Proof.
  intros Hfe Ho Hi.
  apply (for_each_invariant_prefix link_arc
           (λ done s, all_outgoing s.1 s.2 ≡ₚ dict_keys done ∧
                      all_incoming s.1 s.2 ≡ₚ dict_keys done ∧
                      arcs_attached done s.1 s.2)
           arcs (places, transitions) nodes); [| |done].
  - intros done [aid arc] [p1 t1] [p2 t2] (Hpo & Hpi & Hatt) Hstep.
    cbn [fst snd] in *.
    destruct (link_arc_lists _ _ _ _ _ _ Hstep) as [Hlo Hli].
    destruct (link_arc_attach _ _ _ _ _ _ Hstep) as (Hgrow & Hsrc & Htgt).
    unfold dict_keys in *. rewrite fmap_app. cbn [fmap list_fmap fst].
    split_and!.
    + by rewrite Hlo, Hpo, Permutation_cons_append.
    + by rewrite Hli, Hpi, Permutation_cons_append.
    + intros aid' arc' [Hin|[= -> ->]%list_elem_of_singleton]%elem_of_app;
        [|done].
      destruct (Hatt aid' arc' Hin) as [(l & Hl & ?) (l' & Hl' & ?)].
      destruct (Hgrow (Arc.source arc')) as [Hgo _].
      destruct (Hgrow (Arc.target arc')) as [_ Hgi].
      destruct (Hgo l Hl) as (m & ? & Hsub).
      destruct (Hgi l' Hl') as (m' & ? & Hsub').
      split; [exists m|exists m']; (split; [done|]); auto.
  - cbn [fst snd]. rewrite Ho, Hi. split_and!; [done..|].
    by intros ?? ?%elem_of_nil.
Qed.

Lemma build_net_incidence root net :
  build_net root = Ok net →
  all_outgoing (PetriNet.places net) (PetriNet.transitions net)
    ≡ₚ dict_keys (PetriNet.arcs net) ∧
  all_incoming (PetriNet.places net) (PetriNet.transitions net)
    ≡ₚ dict_keys (PetriNet.arcs net) ∧
  arcs_attached (PetriNet.arcs net) (PetriNet.places net)
                (PetriNet.transitions net).
Proof.
  unfold build_net.
  destruct (find_net _) as [net_elem|]; [|done].
  destruct (for_each parse_place _ _) as [places|] eqn:Hp; simpl; [|done].
  destruct (for_each parse_transition _ _) as [transitions|] eqn:Ht; simpl; [|done].
  destruct (for_each parse_arc _ _) as [arcs|] eqn:Ha; simpl; [|done].
  destruct (for_each link_arc _ _) as [nodes|] eqn:Hl; simpl; [|done].
  intros [= <-]. cbn [PetriNet.places PetriNet.transitions PetriNet.arcs].
  destruct (parse_places_unlinked _ _ Hp) as [Hpo Hpi].
  destruct (parse_transitions_unlinked _ _ Ht) as [Hto Hti].
  apply (link_arcs_lists arcs places transitions nodes Hl).
  - unfold all_outgoing. by rewrite Hpo, Hto.
  - unfold all_incoming. by rewrite Hpi, Hti.
Qed.
End Incidence.

(** In a returned net every arc id is listed exactly once among the
    outgoing lists of all nodes and exactly once among their incoming
    lists, and the lists hold nothing else: taken together, the outgoing
    lists are a rearrangement of the arc ids, and so are the incoming
    lists. *)
Theorem arc_ids_listed_once `{StrBuiltins} root require_1safe net :
  parsePNML root require_1safe = Ok net →
  all_outgoing (PetriNet.places net) (PetriNet.transitions net)
    ≡ₚ dict_keys (PetriNet.arcs net) ∧
  all_incoming (PetriNet.places net) (PetriNet.transitions net)
    ≡ₚ dict_keys (PetriNet.arcs net) ∧
  NoDup (all_outgoing (PetriNet.places net) (PetriNet.transitions net)) ∧
  NoDup (all_incoming (PetriNet.places net) (PetriNet.transitions net)).
Proof.
  intros (Hb & _ & _)%parsePNML_Ok.
  destruct (build_net_incidence root net Hb) as (Ho & Hi & _).
  destruct (build_net_Ok root net Hb) as (_ & _ & Hnd & _).
  split_and!; [done..| |].
  - by rewrite Ho.
  - by rewrite Hi.
Qed.

Lemma arc_ids_listed_once_witness :
  parsePNML move_doc true = Ok move_net ∧
  all_outgoing (PetriNet.places move_net) (PetriNet.transitions move_net)
    ≡ₚ dict_keys (PetriNet.arcs move_net).
Proof.
  split; [exact move_doc_parsed|].
  exact (proj1 (arc_ids_listed_once move_doc true move_net move_doc_parsed)).
Defined.

(** In a returned net every arc is listed as outgoing by the node that its
    source names and as incoming by the node that its target names. *)
Theorem arcs_listed_at_endpoints `{StrBuiltins} root require_1safe net :
  parsePNML root require_1safe = Ok net →
  ∀ aid arc, (aid, arc) ∈ PetriNet.arcs net →
    (∃ l, node_outgoing (PetriNet.places net) (PetriNet.transitions net)
                        (Arc.source arc) = Some l ∧ aid ∈ l) ∧
    (∃ l, node_incoming (PetriNet.places net) (PetriNet.transitions net)
                        (Arc.target arc) = Some l ∧ aid ∈ l).
Proof.
  intros (Hb & _ & _)%parsePNML_Ok.
  by destruct (build_net_incidence root net Hb) as (_ & _ & Hatt).
Qed.

Lemma arcs_listed_at_endpoints_witness :
  parsePNML move_doc true = Ok move_net ∧
  ∃ l, node_outgoing (PetriNet.places move_net) (PetriNet.transitions move_net)
                     "p1" = Some l ∧ "a1" ∈ l.
Proof.
  split; [exact move_doc_parsed|].
  refine (proj1 (arcs_listed_at_endpoints move_doc true move_net
                   move_doc_parsed "a1" (Arc.mk "a1" "p1" "t1" 1) _)).
  by left.
Defined.

(** In a returned net the explorer's preset of a transition is exactly the
    set of places from which an arc leads to the transition, and its
    postset exactly the set of places to which an arc leads from it. *)
Theorem parsed_net_presets_exact `{StrBuiltins} root require_1safe net :
  parsePNML root require_1safe = Ok net →
  ∃ pre post,
    precompute net (PetriNet.transitions net) ∅ ∅ = Ok (pre, post) ∧
    ∀ tid, tid ∈ dict_keys (PetriNet.transitions net) →
      ∃ P Q, pre !! tid = Some P ∧ post !! tid = Some Q ∧
        (∀ p, p ∈ P ↔
           p ∈ dict_keys (PetriNet.places net) ∧
           ∃ aid arc, (aid, arc) ∈ PetriNet.arcs net ∧
                      Arc.source arc = p ∧ Arc.target arc = tid) ∧
        (∀ p, p ∈ Q ↔
           p ∈ dict_keys (PetriNet.places net) ∧
           ∃ aid arc, (aid, arc) ∈ PetriNet.arcs net ∧
                      Arc.source arc = tid ∧ Arc.target arc = p).
Proof.
  intros Hok.
  destruct (proj1 (parsePNML_Ok root require_1safe net) Hok) as (Hb & _ & _).
  destruct (precompute_total net (build_net_arcs_resolve root net Hb))
    as (pre & post & Hpc).
  exists pre, post. split; [done|]. intros tid Htid.
  destruct (precompute_total_keys net pre post Hpc tid) as [[P HP] [Q HQ]];
    [by apply elem_of_sorted|].
  exists P, Q. split_and!; [done..| |].
  all: destruct (precompute_values net pre post tid P Q Hpc HP HQ)
         as (t & Hin & HPs & HQs).
  all: destruct (build_net_Ok root net Hb) as (_ & Hndt & Hnd & Hl).
  all: destruct (Hl tid t Hin) as [Hi Ho].
  all: destruct (build_net_incidence root net Hb) as (_ & _ & Hatt).
  all: assert (dict_get (PetriNet.places net) tid = None) as Hnp.
  1, 3: apply dict_get_None; intros Hp;
    destruct (build_net_shared_id root require_1safe net tid Hb Hp Htid)
      as (nodes & Hr & _); congruence.
  all: pose proof (dict_get_elem_of _ _ _ Hndt Hin) as Ht.
  - intros p. rewrite HPs. split.
    + intros (aid & arc & Ha & Hget & Hsrc & Hpl). split; [done|].
      destruct (Hi aid Ha) as (arc' & Harc' & Htgt & _).
      apply (dict_get_elem_of _ _ _ Hnd) in Harc'.
      rewrite Hget in Harc'. injection Harc' as <-.
      exists aid, arc. split_and!; [|done..].
      by apply dict_get_Some_elem_of.
    + intros (Hpl & aid & arc & Harc & Hsrc & Htgt).
      destruct (Hatt aid arc Harc) as [_ (l & Hl' & Hal)].
      unfold node_incoming in Hl'. rewrite Htgt, Hnp, Ht in Hl'.
      injection Hl' as <-.
      exists aid, arc. split_and!; [done| |done..].
      by apply dict_get_elem_of.
  - intros p. rewrite HQs. split.
    + intros (aid & arc & Ha & Hget & Htgt & Hpl). split; [done|].
      destruct (Ho aid Ha) as (arc' & Harc' & Hsrc & _).
      apply (dict_get_elem_of _ _ _ Hnd) in Harc'.
      rewrite Hget in Harc'. injection Harc' as <-.
      exists aid, arc. split_and!; [|done..].
      by apply dict_get_Some_elem_of.
    + intros (Hpl & aid & arc & Harc & Hsrc & Htgt).
      destruct (Hatt aid arc Harc) as [(l & Hl' & Hal) _].
      unfold node_outgoing in Hl'. rewrite Hsrc, Hnp, Ht in Hl'.
      injection Hl' as <-.
      exists aid, arc. split_and!; [done| |done..].
      by apply dict_get_elem_of.
Qed.

Lemma parsed_net_presets_exact_witness :
  parsePNML move_doc true = Ok move_net ∧
  ∃ pre post,
    precompute move_net (PetriNet.transitions move_net) ∅ ∅ = Ok (pre, post) ∧
    ∀ tid, tid ∈ dict_keys (PetriNet.transitions move_net) →
      ∃ P Q, pre !! tid = Some P ∧ post !! tid = Some Q ∧
        (∀ p, p ∈ P ↔
           p ∈ dict_keys (PetriNet.places move_net) ∧
           ∃ aid arc, (aid, arc) ∈ PetriNet.arcs move_net ∧
                      Arc.source arc = p ∧ Arc.target arc = tid) ∧
        (∀ p, p ∈ Q ↔
           p ∈ dict_keys (PetriNet.places move_net) ∧
           ∃ aid arc, (aid, arc) ∈ PetriNet.arcs move_net ∧
                      Arc.source arc = tid ∧ Arc.target arc = p).
Proof.
  split; [exact move_doc_parsed|].
  exact (parsed_net_presets_exact move_doc true move_net move_doc_parsed).
Defined.

(** ** The order in which markings are discovered *)

Lemma expand_Ok_news pre post v M (l : list string) :
  ∀ c c', expand pre post v M l c = Ok c' →
  ∃ news, c' = c ++ news ∧
    ∀ N, N ∈ news → ∃ tid, tid ∈ l ∧ successor pre post M tid = Ok (Some N).
Proof.
  induction l as [|tid l IH]; intros c c'; simpl.
  - intros [= <-]. exists []. rewrite app_nil_r. split; [done|].
    by intros N ?%elem_of_nil.
  - destruct (successor pre post M tid) as [[N|]|e] eqn:Hs; simpl; [| |done].
    + destruct (decide (N ∈ v)).
      * intros (news & -> & Hnews)%IH. exists news. split; [done|].
        intros N' (tid' & ? & ?)%Hnews. exists tid'. split; [by right|done].
      * intros (news & -> & Hnews)%IH. exists (N :: news).
        split; [by rewrite <-(assoc_L (++))|].
        intros N' [->|(tid' & ? & ?)%Hnews]%elem_of_cons.
        -- exists tid. split; [by left|done].
        -- exists tid'. split; [by right|done].
    + intros (news & -> & Hnews)%IH. exists news. split; [done|].
      intros N' (tid' & ? & ?)%Hnews. exists tid'. split; [by right|done].
Qed.

Lemma explore_causal pre post dfs tids (fuel : nat) :
  ∀ st ms, explore pre post fuel dfs tids st = Some (Ok ms) →
  (∀ i M, reachable_markings st !! i = Some M →
     i = 0 ∨ ∃ j M', j < i ∧ reachable_markings st !! j = Some M' ∧
                     fires pre post tids M' M) →
  (reachable_markings st = [] ∧ length (container st) ≤ 1 ∨
   ∀ N, N ∈ container st →
        ∃ M', M' ∈ reachable_markings st ∧ fires pre post tids M' N) →
  ∀ i M, ms !! i = Some M →
    i = 0 ∨ ∃ j M', j < i ∧ ms !! j = Some M' ∧ fires pre post tids M' M.
Proof.
  induction fuel as [|fuel IH]; intros st ms; simpl; [done|].
  destruct (pop dfs (container st)) as [[M rest]|] eqn:Hpop.
  - pose proof (pop_Permutation _ _ _ _ Hpop) as Hperm.
    assert (length (container st) = S (length rest)) as Hlen
      by (by rewrite Hperm).
    destruct (decide (M ∈ visited st)) as [Hin|Hout].
    + intros Hrec Hres Hcont. apply (IH _ _ Hrec); cbn [reachable_markings container].
      * done.
      * destruct Hcont as [[Hnil Hle]|Hcont]; [left; split; [done|lia]|].
        right. intros N HN. apply Hcont. rewrite Hperm. by right.
    + destruct (expand pre post _ M tids rest) as [c|] eqn:Hexp; [|done].
      apply expand_Ok_news in Hexp as (news & -> & Hnews).
      intros Hrec Hres Hcont. apply (IH _ _ Hrec);
        cbn [reachable_markings container].
      * intros i X [[Hlt HX]|[-> ->]]%lookup_snoc_Some.
        -- destruct (Hres i X HX) as [?|(j & M' & Hj & HM' & Hf)]; [by left|].
           right. exists j, M'. split_and!; [done| |done].
           apply lookup_app_l_Some. done.
        -- destruct Hcont as [[Hnil _]|Hcont]; [left; by rewrite Hnil|].
           destruct (Hcont X) as (M' & [j Hj]%list_elem_of_lookup & Hf).
           { rewrite Hperm. by left. }
           right. exists j, M'. split_and!; [|by apply lookup_app_l_Some|done].
           by apply lookup_lt_Some in Hj.
      * right. intros N [HN|HN]%elem_of_app.
        -- destruct Hcont as [[_ Hle]|Hcont].
           { assert (rest = []) as -> by (apply nil_length_inv; lia).
             by apply elem_of_nil in HN. }
           destruct (Hcont N) as (M' & ? & ?); [rewrite Hperm; by right|].
           exists M'. split; [|done]. apply elem_of_app. by left.
        -- exists M. split; [apply elem_of_app; right; by left|].
           by apply Hnews.
  - intros [= <-] Hres _. done.
Qed.

(** In the sequence that the explorer returns, every marking but the
    first is produced by firing one enabled transition at a marking that
    stands earlier in the sequence, in both modes. *)
Theorem discovery_order_is_causal net dfs ms :
  compute_reachable_markings net dfs = Some (Ok ms) →
  ∃ pre post,
    precompute net (PetriNet.transitions net) ∅ ∅ = Ok (pre, post) ∧
    ∀ i M, ms !! i = Some M →
      i = 0 ∨
      ∃ j M', j < i ∧ ms !! j = Some M' ∧
              fires pre post (dict_keys (PetriNet.transitions net)) M' M.
Proof.
  unfold compute_reachable_markings, compute_reachable_markings_fuel.
  destruct (precompute net (PetriNet.transitions net) ∅ ∅)
    as [[pre post]|] eqn:Hpc; [|done].
  intros Hexp. exists pre, post. split; [done|]. intros i M Hi.
  destruct (explore_causal _ _ _ _ _ _ _ Hexp) with (i := i) (M := M)
    as [?|(j & M' & Hj & HM' & tid & Htid & Hs)];
    cbn [reachable_markings container length]; [done|left; split; [done|lia]|done
                                               |by left|].
  right. exists j, M'. split_and!; [done..|].
  exists tid. split; [|done]. by apply elem_of_sorted.
Qed.

Lemma discovery_order_is_causal_witness :
  compute_reachable_markings cycle_net false
  = Some (Ok [{[ "p1" ]}; {[ "p2" ]}]) ∧
  ∃ pre post,
    precompute cycle_net (PetriNet.transitions cycle_net) ∅ ∅
    = Ok (pre, post) ∧
    ∀ i M, [({[ "p1" ]} : marking); {[ "p2" ]}] !! i = Some M →
      i = 0 ∨
      ∃ j M', j < i ∧ [({[ "p1" ]} : marking); {[ "p2" ]}] !! j = Some M' ∧
              fires pre post (dict_keys (PetriNet.transitions cycle_net)) M' M.
Proof.
  split; [exact cycle_net_bfs|].
  apply (discovery_order_is_causal cycle_net false). exact cycle_net_bfs.
Defined.

(** ** Namespaces and the net element *)

Lemma after_brace_app (ns rest : string) :
  "}"%char ∉ String.list_ascii_of_string ns →
  after_brace (ns +:+ String "}"%char rest) = Some rest.
Proof.
  induction ns as [|c ns IH]; simpl.
  - done.
  - intros Hnot. rewrite decide_False.
    + apply IH. intros Hin. apply Hnot. by right.
    + intros ->. apply Hnot. by left.
Qed.

Lemma after_brace_None (t : string) :
  "}"%char ∉ String.list_ascii_of_string t → after_brace t = None.
Proof.
  induction t as [|c t IH]; simpl; [done|].
  intros Hnot. rewrite decide_False.
  - apply IH. intros Hin. apply Hnot. by right.
  - intros ->. apply Hnot. by left.
Qed.

(** A tag [{ns}local] whose namespace [ns] holds no closing brace becomes
    [local], also when [local] itself holds one; a tag without a closing
    brace is kept. *)
Theorem strip_namespace_local_name t ns local a x cs :
  "}"%char ∉ String.list_ascii_of_string ns →
  "}"%char ∉ String.list_ascii_of_string t →
  tag (strip_namespace (mkElement ("{" +:+ ns +:+ "}" +:+ local) a x cs))
  = local ∧
  tag (strip_namespace (mkElement t a x cs)) = t.
Proof.
  intros Hns Ht. split.
  - cbn [strip_namespace tag].
    change ("{" +:+ ns +:+ "}" +:+ local)
      with (String "{"%char (ns +:+ String "}"%char local)).
    cbn [after_brace]. rewrite decide_False by done.
    by rewrite after_brace_app.
  - cbn [strip_namespace tag]. by rewrite after_brace_None.
Qed.

Lemma strip_namespace_local_name_witness :
  tag (strip_namespace
         (mkElement "{http://www.pnml.org/version-2009/grammar/pnml}net"
                    [] None [])) = "net" ∧
  tag (strip_namespace (mkElement "place" [] None [])) = "place".
Proof.
  apply (strip_namespace_local_name "place"
           "http://www.pnml.org/version-2009/grammar/pnml" "net" [] None []).
  - vm_compute. intros Hin.
    repeat (apply elem_of_cons in Hin as [Hin|Hin]; [discriminate Hin|]).
    by apply elem_of_nil in Hin.
  - vm_compute. intros Hin.
    repeat (apply elem_of_cons in Hin as [Hin|Hin]; [discriminate Hin|]).
    by apply elem_of_nil in Hin.
Defined.

Lemma children_strip_namespace e :
  children (strip_namespace e) = strip_namespace <$> children e.
Proof. by destruct e. Qed.

Lemma find_net_None root :
  find_net root = None ↔ Forall (λ c, tag c ≠ "net") (children root).
Proof.
  unfold find_net, find, findall.
  destruct (filter _ (children root)) as [|c l] eqn:Hf; simpl.
  - split; [intros _|done]. apply Forall_forall. intros c Hc Htag.
    assert (c ∈ filter (λ c, tag c = "net") (children root)) as Hin
      by (by apply list_elem_of_filter).
    rewrite Hf in Hin. by apply elem_of_nil in Hin.
  - split; [done|]. intros Hall.
    assert (c ∈ filter (λ c, tag c = "net") (children root)) as Hin
      by (rewrite Hf; by left).
    apply list_elem_of_filter in Hin as [Htag Hin].
    rewrite Forall_forall in Hall. by destruct (Hall c Hin).
Qed.

(** [parsePNML] fails for a missing net exactly when no child of the root
    has the local name [net]: a net that lies deeper in the document is
    not found, and the second lookup of the source never finds one that
    the first has missed. *)
Theorem no_net_element_failure `{StrBuiltins} root require_1safe :
  parsePNML root require_1safe = Raise NoNetElement ↔
  Forall (λ c, tag (strip_namespace c) ≠ "net") (children root).
Proof.
  assert (Forall (λ c, tag (strip_namespace c) ≠ "net") (children root)
          ↔ find_net (strip_namespace root) = None) as ->
    by (by rewrite find_net_None, children_strip_namespace, Forall_fmap).
  split.
  - intros [Hb|(net & _ & [[_ ?]|(_ & _ & [[_ ?]|(_ & _ & ?)])])]%parsePNML_Raise;
      [|done..].
    revert Hb. unfold build_net.
    destruct (find_net _) as [net_elem|]; [|done].
    destruct (for_each parse_place _ _) as [places|e1] eqn:Hp; simpl.
    2:{ intros [= ->]. apply for_each_Raise in Hp as (x & s & _ & Hx).
        by apply parse_place_Raise in Hx as [?|(? & ? & _)]. }
    destruct (for_each parse_transition _ _) as [transitions|e1] eqn:Ht; simpl.
    2:{ intros [= ->]. apply for_each_Raise in Ht as (x & s & _ & Hx).
        by apply parse_transition_Raise in Hx as [?|(? & ? & _)]. }
    destruct (for_each parse_arc _ _) as [arcs|e1] eqn:Ha; simpl.
    2:{ intros [= ->]. apply for_each_Raise in Ha as (x & s & _ & Hx).
        by apply parse_arc_Raise in Hx
          as [?|[(? & ?)|[(? & ?)|(? & ? & ?)]]]. }
    destruct (for_each link_arc _ _) as [nodes|e1] eqn:Hl; simpl; [done|].
    intros [= ->]. apply for_each_Raise in Hl as (x & s & _ & Hx).
    by apply link_arc_Raise in Hx as [(? & ? & ?)|(? & ? & ?)].
  - intros Hnone. apply parsePNML_Raise. left. unfold build_net.
    by rewrite Hnone.
Qed.

(** * The firing rule in the exploration loop *)

Lemma isEnabled_Some pre (M P : marking) tid :
  pre !! tid = Some P → isEnabled pre M tid = true ↔ P ⊆ M.
Proof. intros HP. unfold isEnabled. by rewrite HP, bool_decide_eq_true. Qed.

Lemma fire_Some pre post (M P Q : marking) tid :
  pre !! tid = Some P → post !! tid = Some Q →
  fire pre post M tid = (M ∖ P) ∪ Q.
Proof. intros HP HQ. unfold fire. by rewrite HP, HQ. Qed.

Lemma successor_fire pre post (M : marking) tid :
  is_Some (pre !! tid) → is_Some (post !! tid) →
  successor pre post M tid
  = Ok (if isEnabled pre M tid then Some (fire pre post M tid) else None).
Proof.
  intros [P HP] [Q HQ]. unfold successor, getitem, isEnabled, fire.
  rewrite HP, HQ. simpl. destruct (all_in M P) eqn:Ha.
  - apply all_in_subseteq in Ha. by rewrite bool_decide_eq_true_2.
  - rewrite bool_decide_eq_false_2; [done|].
    rewrite <-all_in_subseteq. congruence.
Qed.

(** One pass of the loop over the transitions pushes exactly the fired
    successors of the enabled transitions that are not visited, in the
    order of the ids. *)
Lemma expand_pushed pre post (v : gset marking) (M : marking) (l : list string) :
  (∀ tid, tid ∈ l → is_Some (pre !! tid) ∧ is_Some (post !! tid)) →
  ∀ c, expand pre post v M l c = Ok (c ++ pushed pre post l v M).
Proof.
  unfold pushed. induction l as [|tid l IH]; intros Htot c; simpl.
  - by rewrite app_nil_r.
  - destruct (Htot tid) as [HP HQ]; [by left|].
    assert (∀ tid', tid' ∈ l → is_Some (pre !! tid') ∧ is_Some (post !! tid'))
      as Htot' by (intros tid' ?; apply Htot; by right).
    rewrite successor_fire by done. simpl.
    destruct (isEnabled pre M tid) eqn:He.
    + rewrite filter_cons_True by done. csimpl.
      destruct (decide (fire pre post M tid ∈ v)) as [Hin|Hout].
      * rewrite filter_cons_False by (by intros ?). by apply IH.
      * rewrite filter_cons_True by done. rewrite IH by done.
        by rewrite <-(assoc_L (++)).
    + rewrite filter_cons_False by (by rewrite He). by apply IH.
Qed.

(** C1: with the presets and postsets that the explorer computes, the
    loop over the transitions produces a successor of [M] by [tid]
    exactly when the preset of [tid] is included in [M]; the successor is
    [(M ∖ preset) ∪ postset], so a place of both the preset and the
    postset is marked in it.  One pass of the loop at [M] pushes exactly
    these successors, those that are visited left out; and the returned
    sequence holds the initial marking and, with every marking [M] it
    holds, exactly the successors of [M] by the transitions enabled at
    [M]. *)
Theorem successor_firing_rule net pre post :
  precompute net (PetriNet.transitions net) ∅ ∅ = Ok (pre, post) →
  (∀ tid, tid ∈ dict_keys (PetriNet.transitions net) →
     ∃ P Q, pre !! tid = Some P ∧ post !! tid = Some Q ∧
       ∀ M, (isEnabled pre M tid = true ↔ P ⊆ M) ∧
            fire pre post M tid = (M ∖ P) ∪ Q ∧
            (∀ N, successor pre post M tid = Ok (Some N) ↔
                  P ⊆ M ∧ N = (M ∖ P) ∪ Q) ∧
            (successor pre post M tid = Ok None ↔ ¬ P ⊆ M) ∧
            (∀ N p, successor pre post M tid = Ok (Some N) →
                    p ∈ P → p ∈ Q → p ∈ N)) ∧
  (∀ M v c,
     expand pre post v M (sorted (dict_keys (PetriNet.transitions net))) c
     = Ok (c ++ pushed pre post
                  (sorted (dict_keys (PetriNet.transitions net))) v M)) ∧
  (∀ dfs, ∃ ms,
     compute_reachable_markings net dfs = Some (Ok ms) ∧
     ∀ N, N ∈ ms ↔
          N = initial_marking_of net ∨
          ∃ M tid, M ∈ ms ∧ tid ∈ dict_keys (PetriNet.transitions net) ∧
                   isEnabled pre M tid = true ∧ N = fire pre post M tid).
Proof.
  intros Hpc.
  pose proof (precompute_total_keys net pre post Hpc) as Htot.
  split_and!.
  - intros tid Hin.
    destruct (Htot tid) as [[P HP] [Q HQ]]; [by rewrite elem_of_sorted|].
    exists P, Q. split_and!; [done..|]. intros M.
    assert (∀ N, successor pre post M tid = Ok (Some N) ↔
                 P ⊆ M ∧ N = (M ∖ P) ∪ Q) as Hsucc.
    { intros N. rewrite successor_Some. split.
      - intros (P' & Q' & HP' & HQ' & Hsub & ->).
        rewrite HP in HP'. rewrite HQ in HQ'.
        injection HP' as <-. injection HQ' as <-. done.
      - intros [Hsub ->]. by exists P, Q. }
    split_and!.
    + by apply isEnabled_Some.
    + by apply fire_Some.
    + done.
    + rewrite successor_None. split.
      * intros (P' & HP' & Hsub). rewrite HP in HP'. by injection HP' as <-.
      * intros Hsub. by exists P.
    + intros N p [_ ->]%Hsucc _ Hq. apply elem_of_union. by right.
  - intros M v c. by apply expand_pushed.
  - intros dfs.
    destruct (compute_reachable_markings_fuel_correct net dfs pre post
                (enough_fuel net) Hpc) as (ms & Hc & _ & Hms); [done|].
    exists ms. split; [done|]. intros N. split.
    + intros HN. apply Hms in HN.
      apply rtc_inv_r in HN as [->|(M & HM & tid & Htid & Hs)]; [by left|].
      right. exists M, tid. destruct (Htot tid Htid) as [HP HQ].
      rewrite successor_fire in Hs by done.
      destruct (isEnabled pre M tid) eqn:He; [|done]. injection Hs as <-.
      split_and!; [by apply Hms|by rewrite elem_of_sorted in Htid|done..].
    + intros [->|(M & tid & HM & Htid & He & ->)]; apply Hms; [apply rtc_refl|].
      apply rtc_r with M; [by apply Hms|].
      exists tid. split; [by apply elem_of_sorted|].
      destruct (Htot tid) as [HP HQ]; [by apply elem_of_sorted|].
      by rewrite successor_fire, He.
Qed.

Lemma loop_net_precompute :
  precompute loop_net (PetriNet.transitions loop_net) ∅ ∅
  = Ok (loop_pre, loop_post).
Proof. vm_compute. reflexivity. Qed.

Lemma successor_firing_rule_witness :
  precompute loop_net (PetriNet.transitions loop_net) ∅ ∅
  = Ok (loop_pre, loop_post) ∧
  ∃ ms, compute_reachable_markings loop_net false = Some (Ok ms) ∧
    ∀ N, N ∈ ms ↔
         N = initial_marking_of loop_net ∨
         ∃ M tid, M ∈ ms ∧ tid ∈ dict_keys (PetriNet.transitions loop_net) ∧
                  isEnabled loop_pre M tid = true ∧
                  N = fire loop_pre loop_post M tid.
Proof.
  split; [exact loop_net_precompute|].
  destruct (successor_firing_rule loop_net loop_pre loop_post
              loop_net_precompute) as (_ & _ & Hrun).
  exact (Hrun false).
Defined.

(** * The discovery sequence *)

Lemma pop_popped (dfs : bool) (c rest : list marking) (M : marking) :
  pop dfs c = Some (M, rest) ↔ popped dfs c M rest.
Proof. destruct dfs; [apply pop_dfs|apply pop_bfs]. Qed.

Lemma popped_det (dfs : bool) (c rest1 rest2 : list marking) (M1 M2 : marking) :
  popped dfs c M1 rest1 → popped dfs c M2 rest2 → M1 = M2 ∧ rest1 = rest2.
Proof.
  destruct dfs; simpl; intros -> Heq.
  - by apply app_inj_tail in Heq as [-> ->].
  - by injection Heq as -> ->.
Qed.

Lemma popped_nil (dfs : bool) (M : marking) (rest : list marking) :
  ¬ popped dfs [] M rest.
Proof. destruct dfs; simpl; [by destruct rest|done]. Qed.

Lemma discovery_step_det pre post ids dfs (st st1 st2 : state) :
  discovery_step pre post ids dfs st st1 →
  discovery_step pre post ids dfs st st2 → st1 = st2.
Proof.
  intros H1 H2. inversion H1 as [v c r M rest Hp Hin|v c r M rest Hp Hout];
    subst; inversion H2 as [v' c' r' M' rest' Hp' Hin'|v' c' r' M' rest' Hp' Hout'];
    subst; destruct (popped_det _ _ _ _ _ _ Hp Hp') as [-> ->]; done.
Qed.

Lemma discovery_run_unique pre post ids dfs (st f1 f2 : state) :
  rtc (discovery_step pre post ids dfs) st f1 → container f1 = [] →
  rtc (discovery_step pre post ids dfs) st f2 → container f2 = [] →
  f1 = f2.
Proof.
  intros Hrun1. revert f2.
  induction Hrun1 as [st|st y f1 Hstep Hrun1 IH]; intros f2 Hnil1 Hrun2 Hnil2.
  - destruct Hrun2 as [|st y f2 Hstep _]; [done|].
    inversion Hstep as [v c r M rest Hp _|v c r M rest Hp _]; subst;
      simpl in Hnil1; subst; by apply popped_nil in Hp.
  - destruct Hrun2 as [|st y' f2 Hstep' Hrun2].
    + inversion Hstep as [v c r M rest Hp _|v c r M rest Hp _]; subst;
        simpl in Hnil2; subst; by apply popped_nil in Hp.
    + rewrite (discovery_step_det _ _ _ _ _ _ _ Hstep' Hstep) in Hrun2.
      by apply IH.
Qed.

(** A run of the loop that returns is a sequence of discovery steps that
    ends with an empty frontier. *)
Lemma explore_run pre post dfs tids (fuel : nat) :
  (∀ tid, tid ∈ tids → is_Some (pre !! tid) ∧ is_Some (post !! tid)) →
  ∀ st ms, explore pre post fuel dfs tids st = Some (Ok ms) →
  ∃ V, rtc (discovery_step pre post tids dfs) st (mkState V [] ms).
Proof.
  intros Htot. induction fuel as [|fuel IH]; intros [v c r] ms; simpl; [done|].
  destruct (pop dfs c) as [[M rest]|] eqn:Hpop.
  - apply pop_popped in Hpop.
    destruct (decide (M ∈ v)) as [Hin|Hout].
    + intros (V & Hrun)%IH. exists V.
      eapply rtc_l; [|done]. by eapply step_discard.
    + rewrite expand_pushed by done.
      intros (V & Hrun)%IH. exists V.
      eapply rtc_l; [|done]. by eapply step_append.
  - apply pop_None in Hpop as ->. intros [= <-]. exists v. apply rtc_refl.
Qed.

Lemma discovery_run_inv pre post ids dfs (M0 : marking) (st : state) :
  rtc (discovery_step pre post ids dfs) (mkState ∅ [M0] []) st →
  NoDup (reachable_markings st) ∧
  ∀ M, M ∈ reachable_markings st ↔ M ∈ visited st.
Proof.
  revert st. apply (rtc_ind_r (λ st, NoDup (reachable_markings st) ∧
    ∀ M, M ∈ reachable_markings st ↔ M ∈ visited st)); simpl.
  - split; [constructor|]. intros M.
    split; [by intros ?%elem_of_nil|by intros ?%not_elem_of_empty].
  - intros st st' _ Hstep [Hnd Hres].
    inversion Hstep as [v c r M rest Hp Hin|v c r M rest Hp Hout]; subst;
      simpl in *; [done|].
    split.
    + apply NoDup_app. split_and!; [done| |apply NoDup_singleton].
      intros M' HM' ->%list_elem_of_singleton. by apply Hout, Hres.
    + intros M'. rewrite elem_of_app, elem_of_union, list_elem_of_singleton,
        elem_of_singleton, Hres. done.
Qed.

Lemma sorted_unique (ids l : list string) :
  StronglySorted String.le ids → ids ≡ₚ l → sorted l = ids.
Proof.
  intros Hs Hp. apply (StronglySorted_unique String.le).
  - apply sorted_StronglySorted.
  - done.
  - by rewrite sorted_Permutation.
Qed.

(** C4: the explorer returns the sequence [ms] exactly when the discovery
    steps lead from the frontier that holds only the initial marking to an
    empty frontier with the result [ms], where a step pops a marking (from
    the front in breadth-first mode, from the end in depth-first mode),
    discards it when it is visited, and otherwise appends it to the result
    and pushes its successors that are not visited, the transitions taken
    in ascending order of their ids.  A step has one outcome only, so the
    sequence is determined by the net and the mode; along the steps the
    result holds every visited marking exactly once. *)
Theorem discovery_sequence net dfs pre post ids :
  precompute net (PetriNet.transitions net) ∅ ∅ = Ok (pre, post) →
  StronglySorted String.le ids →
  ids ≡ₚ dict_keys (PetriNet.transitions net) →
  (∃ ms, compute_reachable_markings net dfs = Some (Ok ms)) ∧
  (∀ ms, compute_reachable_markings net dfs = Some (Ok ms) ↔
         ∃ V, rtc (discovery_step pre post ids dfs)
                  (mkState ∅ [initial_marking_of net] []) (mkState V [] ms)) ∧
  (∀ st st1 st2,
     discovery_step pre post ids dfs st st1 →
     discovery_step pre post ids dfs st st2 → st1 = st2) ∧
  (∀ st, rtc (discovery_step pre post ids dfs)
             (mkState ∅ [initial_marking_of net] []) st →
         NoDup (reachable_markings st) ∧
         ∀ M, M ∈ reachable_markings st ↔ M ∈ visited st) ∧
  (∀ ms, compute_reachable_markings net dfs = Some (Ok ms) → NoDup ms) ∧
  (∀ fuel1 fuel2 r1 r2,
     compute_reachable_markings_fuel fuel1 net dfs = Some r1 →
     compute_reachable_markings_fuel fuel2 net dfs = Some r2 → r1 = r2).
Proof.
  intros Hpc Hsorted Hperm.
  pose proof (sorted_unique _ _ Hsorted Hperm) as Hids.
  pose proof (precompute_total_keys net pre post Hpc) as Htot.
  destruct (compute_reachable_markings_fuel_correct net dfs pre post
              (enough_fuel net) Hpc) as (ms0 & Hc0 & Hnd0 & _); [done|].
  assert (∀ ms, compute_reachable_markings net dfs = Some (Ok ms) →
            ∃ V, rtc (discovery_step pre post ids dfs)
                     (mkState ∅ [initial_marking_of net] []) (mkState V [] ms))
    as Hrun.
  { intros ms. unfold compute_reachable_markings, compute_reachable_markings_fuel.
    rewrite Hpc, Hids. apply explore_run. by rewrite <-Hids. }
  split_and!.
  - by exists ms0.
  - intros ms. split; [apply Hrun|].
    intros [V HV]. destruct (Hrun ms0 Hc0) as [V0 HV0].
    pose proof (discovery_run_unique _ _ _ _ _ _ _ HV eq_refl HV0 eq_refl) as Heq.
    injection Heq as _ ->. done.
  - apply discovery_step_det.
  - apply discovery_run_inv.
  - intros ms Hc. unfold compute_reachable_markings in *. congruence.
  - apply compute_reachable_markings_fuel_det.
Qed.

Lemma discovery_sequence_witness :
  precompute cycle_net (PetriNet.transitions cycle_net) ∅ ∅
  = Ok (cycle_pre, cycle_post) ∧
  ∃ V, rtc (discovery_step cycle_pre cycle_post ["t1"; "t2"] true)
           (mkState ∅ [initial_marking_of cycle_net] [])
           (mkState V [] [{[ "p1" ]}; {[ "p2" ]}]).
Proof.
  split; [exact cycle_net_precompute|].
  refine (proj1 (proj1 (proj2 (discovery_sequence cycle_net true cycle_pre
                                 cycle_post ["t1"; "t2"]
                                 cycle_net_precompute _ _)) _) cycle_net_dfs).
  - repeat constructor.
  - reflexivity.
Defined.

(** * Numeric text *)

Section LoopsInDetail.
Context {A S : Type} (body : A → S → result S).

Lemma for_each_app (l1 l2 : list A) (s : S) :
  for_each body (l1 ++ l2) s = for_each body l1 s ≫= for_each body l2.
Proof.
  revert s. induction l1 as [|x l1 IH]; intros s; simpl; [done|].
  destruct (body x s) as [s1|e]; simpl; [apply IH|done].
Qed.

(** A loop that raises has run without error up to the element whose
    iteration raises. *)
Lemma for_each_Raise_prefix (l : list A) (s : S) (e : Error) :
  for_each body l s = Raise e ↔
  ∃ done x rest s0, l = done ++ x :: rest ∧
    for_each body done s = Ok s0 ∧ body x s0 = Raise e.
Proof.
  split.
  - revert s. induction l as [|x l IH]; intros s; simpl; [done|].
    destruct (body x s) as [s1|e'] eqn:Hb; simpl.
    + intros (done & y & rest & s0 & -> & Hdone & Hy)%IH.
      exists (x :: done), y, rest, s0. simpl. by rewrite Hb.
    + intros [= <-]. by exists [], x, l, s.
  - intros (done & x & rest & s0 & -> & Hdone & Hx).
    rewrite for_each_app, Hdone. simpl. by rewrite Hx.
Qed.
End LoopsInDetail.

Section KeyedLoop.
Context {V : Type} (body : Element → list (string * V) → result (list (string * V))).
Context (accept : Element → Prop) (mk : Element → string → V).
Hypothesis body_Ok : ∀ x s s',
  body x s = Ok s' ↔
  ∃ k, get x "id" = Some k ∧ dict_mem k s = false ∧ accept x ∧
       s' = s ++ [(k, mk x k)].

(** A loop that stores one record per element under the element's id
    succeeds exactly when every element is accepted and has an id that is
    new; it then appends the records in the order of the elements. *)
Lemma keyed_loop_Ok (elems : list Element) :
  ∀ s s', for_each body elems s = Ok s' ↔
  ∃ ids, (λ e, get e "id") <$> elems = Some <$> ids ∧ NoDup ids ∧
    (∀ i, i ∈ ids → i ∉ dict_keys s) ∧ Forall accept elems ∧
    s' = s ++ zip_with (λ x k, (k, mk x k)) elems ids.
Proof.
  induction elems as [|x elems IH]; intros s s'; simpl.
  - split.
    + intros [= <-]. exists [].
      split_and!; [done|constructor|by intros ? ?%elem_of_nil|constructor|].
      by rewrite app_nil_r.
    + intros (ids & _ & _ & _ & _ & ->). by rewrite app_nil_r.
  - split.
    + destruct (body x s) as [s1|] eqn:Hb; simpl; [|done].
      apply body_Ok in Hb as (k & Hk & Hm & Hacc & ->).
      intros (ids & Hids & Hnd & Hfresh & Hall & ->)%IH.
      exists (k :: ids). split_and!.
      * csimpl. by rewrite Hk, Hids.
      * constructor; [|done]. intros Hin. apply (Hfresh k Hin).
        unfold dict_keys. rewrite fmap_app. apply elem_of_app. right. by left.
      * intros i [->|Hi]%elem_of_cons; [by apply dict_mem_false|].
        intros Hin. apply (Hfresh i Hi).
        unfold dict_keys in *. rewrite fmap_app. apply elem_of_app. by left.
      * by constructor.
      * simpl. by rewrite <-(assoc_L (++)).
    + intros (ids & Hids & Hnd & Hfresh & Hall & ->).
      destruct ids as [|k ids]; [done|]. csimpl in Hids.
      injection Hids as Hk Hids. apply NoDup_cons in Hnd as [Hk' Hnd].
      apply Forall_cons in Hall as [Hacc Hall].
      assert (body x s = Ok (s ++ [(k, mk x k)])) as ->.
      { apply body_Ok. exists k. split_and!; [done| |done..].
        apply dict_mem_false, Hfresh. by left. }
      simpl. apply IH. exists ids. split_and!; [done..| |done|].
      * intros i Hi. unfold dict_keys. rewrite fmap_app.
        intros [Hin| ->%list_elem_of_singleton]%elem_of_app; [|done].
        apply (Hfresh i); [by right|done].
      * simpl. by rewrite <-(assoc_L (++)).
Qed.

Lemma keyed_loop_ids (elems : list Element) :
  (∃ s', for_each body elems [] = Ok s') ↔
  ids_distinct elems ∧ Forall accept elems.
Proof.
  split.
  - intros [s' (ids & ? & ? & _ & ? & _)%keyed_loop_Ok].
    split; [by exists ids|done].
  - intros [(ids & Hids & Hnd) Hall]. eexists. apply keyed_loop_Ok.
    exists ids. split_and!; [done..| |done|done].
    by intros i _ ?%elem_of_nil.
Qed.

Lemma keyed_loop_Forall2 (elems : list Element) (s' : list (string * V)) :
  for_each body elems [] = Ok s' →
  Forall2 (λ x kv, get x "id" = Some kv.1 ∧ kv.2 = mk x kv.1) elems s'.
Proof.
  intros (ids & Hids & _ & _ & _ & ->)%keyed_loop_Ok.
  simpl. clear body_Ok. revert ids Hids.
  induction elems as [|x elems IH]; intros ids Hids; simpl; [constructor|].
  destruct ids as [|k ids]; [done|]. csimpl in Hids.
  injection Hids as Hk Hids. constructor; [done|by apply IH].
Qed.
End KeyedLoop.

Section NumericText.
Context `{StrBuiltins}.

Lemma parseInteger_numeric_value (t : option string) (d : Z) :
  parseInteger t d = default d (numeric_value t).
Proof.
  unfold parseInteger, numeric_value. destruct t as [s|]; simpl; [|done].
  by destruct (int_of_str (str_strip s)).
Qed.

Lemma numeric_value_Some (t : option string) (w : Z) :
  numeric_value t = Some w ↔
  ∃ s, t = Some s ∧ int_of_str (str_strip s) = Some w.
Proof.
  unfold numeric_value. destruct t as [s|]; simpl.
  - split; [by exists s|]. by intros (s' & [= <-] & ?).
  - split; [done|]. by intros (? & ? & _).
Qed.

Lemma positive_weight (t : option string) :
  (0 < parseInteger t 1)%Z ↔ ∀ w, numeric_value t = Some w → (0 < w)%Z.
Proof.
  rewrite parseInteger_numeric_value.
  destruct (numeric_value t) as [w|]; simpl.
  - split; [by intros ? ? [= <-]|auto].
  - split; [done|lia].
Qed.

Lemma parse_place_spec p s s' :
  parse_place p s = Ok s' ↔
  ∃ k, get p "id" = Some k ∧ dict_mem k s = false ∧ True ∧
       s' = s ++ [(k, Place.mk k (str_or (parseText p ["name"; "text"])
                                        (parseText p ["name"]))
                             (parseInteger (im_text p) 0) [] [])].
Proof.
  split.
  - intros (pid & ? & ? & ->)%parse_place_Ok. by exists pid.
  - intros (k & Hk & Hm & _ & ->). unfold parse_place.
    by rewrite Hk, Hm, dict_set_fresh.
Qed.

Lemma parse_transition_spec t s s' :
  parse_transition t s = Ok s' ↔
  ∃ k, get t "id" = Some k ∧ dict_mem k s = false ∧ True ∧
       s' = s ++ [(k, Transition.mk k (str_or (parseText t ["name"; "text"])
                                             (parseText t ["name"])) [] [])].
Proof.
  split.
  - intros (tid & ? & ? & ->)%parse_transition_Ok. by exists tid.
  - intros (k & Hk & Hm & _ & ->). unfold parse_transition.
    by rewrite Hk, Hm, dict_set_fresh.
Qed.

Lemma parse_arc_spec a s s' :
  parse_arc a s = Ok s' ↔
  ∃ k, get a "id" = Some k ∧ dict_mem k s = false ∧ arc_accepted a ∧
       s' = s ++ [(k, Arc.mk k (default "" (get a "source"))
                           (default "" (get a "target"))
                           (parseInteger (weight_text a) 1))].
Proof.
  split.
  - intros (aid & src & tgt & Hid & Hm & Hs & Ht & Hw & ->)%parse_arc_Ok.
    exists aid. rewrite Hs, Ht. split_and!; [done..| |done].
    split_and!; [by rewrite Hs|by rewrite Ht|by apply positive_weight].
  - intros (k & Hk & Hm & ([src Hs] & [tgt Ht] & Hw) & ->).
    apply positive_weight in Hw. unfold parse_arc.
    rewrite Hk, Hm, Hs, Ht. rewrite decide_False by lia.
    by rewrite dict_set_fresh.
Qed.

Lemma Forall_True {A} (l : list A) : Forall (λ _, True) l.
Proof. by apply Forall_forall. Qed.

Lemma parse_places_ids_distinct elems :
  (∃ places, for_each parse_place elems [] = Ok places) ↔ ids_distinct elems.
Proof.
  rewrite (keyed_loop_ids parse_place _ _ parse_place_spec).
  split; [by intros [? _]|]. intros ?. split; [done|apply Forall_True].
Qed.

Lemma parse_transitions_ids_distinct elems :
  (∃ transitions, for_each parse_transition elems [] = Ok transitions) ↔
  ids_distinct elems.
Proof.
  rewrite (keyed_loop_ids parse_transition _ _ parse_transition_spec).
  split; [by intros [? _]|]. intros ?. split; [done|apply Forall_True].
Qed.

Lemma parse_arcs_accepted elems :
  (∃ arcs, for_each parse_arc elems [] = Ok arcs) ↔
  ids_distinct elems ∧ Forall arc_accepted elems.
Proof. apply (keyed_loop_ids parse_arc _ _ parse_arc_spec). Qed.

(** The first part of [parsePNML] raises the error for a weight at an arc
    element exactly when everything before that element was collected
    without error and the inscription of the element reads as an integer
    that is at most 0. *)
Lemma build_net_NonPositiveWeight root aid w :
  build_net root = Raise (NonPositiveWeight aid w) ↔
  ∃ net_elem done a rest,
    find_net (strip_namespace root) = Some net_elem ∧
    ids_distinct (findall net_elem "place") ∧
    ids_distinct (findall net_elem "transition") ∧
    findall net_elem "arc" = done ++ a :: rest ∧
    ids_distinct done ∧ Forall arc_accepted done ∧
    get a "id" = Some aid ∧ (Some aid ∉ (λ e, get e "id") <$> done) ∧
    is_Some (get a "source") ∧ is_Some (get a "target") ∧
    numeric_value (weight_text a) = Some w ∧ (w ≤ 0)%Z.
Proof.
  unfold build_net. split.
  - destruct (find_net _) as [net_elem|] eqn:Hnet; [|done].
    destruct (for_each parse_place _ _) as [places|e1] eqn:Hp; simpl.
    2:{ intros [= ->]. apply for_each_Raise in Hp as (x & s & _ & Hx).
        by apply parse_place_Raise in Hx as [?|(? & ? & _)]. }
    destruct (for_each parse_transition _ _) as [transitions|e1] eqn:Ht; simpl.
    2:{ intros [= ->]. apply for_each_Raise in Ht as (x & s & _ & Hx).
        by apply parse_transition_Raise in Hx as [?|(? & ? & _)]. }
    destruct (for_each parse_arc _ _) as [arcs|e1] eqn:Ha; simpl.
    2:{ intros [= ->].
        apply for_each_Raise_prefix
          in Ha as (done & a & rest & arcs0 & Hsplit & Hdone & Hx).
        apply parse_arc_NonPositiveWeight
          in Hx as (Hid & Hm & Hs & Htg & Hnum & Hw).
        pose proof (parse_arcs_keys _ _ Hdone) as Hkeys.
        destruct (proj1 (parse_arcs_accepted done)) as [Hids Hacc]; [eauto|].
        exists net_elem, done, a, rest. split_and!; try done.
        - apply parse_places_ids_distinct. eauto.
        - apply parse_transitions_ids_distinct. eauto.
        - rewrite <-Hkeys. intros (k & [= <-] & Hin)%list_elem_of_fmap.
          by apply dict_mem_false in Hm.
        - by apply numeric_value_Some. }
    destruct (for_each link_arc _ _) as [nodes|e1] eqn:Hl; simpl; [done|].
    intros [= ->]. apply for_each_Raise in Hl as (x & s & _ & Hx).
    by apply link_arc_Raise in Hx as [(? & ? & ?)|(? & ? & ?)].
  - intros (net_elem & done & a & rest & -> & Hp & Ht & -> & Hids & Hacc
            & Hid & Hnew & Hs & Htg & Hnum & Hw).
    apply parse_places_ids_distinct in Hp as [places ->].
    apply parse_transitions_ids_distinct in Ht as [transitions ->]. simpl.
    destruct (proj2 (parse_arcs_accepted done)) as [arcs0 Hdone]; [done|].
    assert (for_each parse_arc (done ++ a :: rest) []
            = Raise (NonPositiveWeight aid w)) as ->; [|done].
    apply for_each_Raise_prefix. exists done, a, rest, arcs0.
    split_and!; [done..|].
    apply parse_arc_NonPositiveWeight. split_and!; try done.
    + apply dict_mem_false. intros Hin. apply Hnew.
      rewrite <-(parse_arcs_keys _ _ Hdone). by apply list_elem_of_fmap_2.
    + by apply numeric_value_Some.
Qed.
End NumericText.

(** C8: text that is absent or is not a number never makes the parser
    fail.  A place element with a new id is always stored, with marking 0
    when its marking text is absent or is not a number; an arc element
    with a new id, a source and a target is stored with weight 1 when its
    inscription is absent or is not a number, and with the number it reads
    as when that is positive.  So the places are collected exactly when
    their ids are present and distinct, and the arcs exactly when moreover
    each names a source and a target and no inscription reads as an
    integer that is at most 0.  [parsePNML] raises the error for a weight
    exactly when an arc element whose inscription reads as such an integer
    is reached without an earlier error. *)
Theorem numeric_text_is_permissive `{StrBuiltins} :
  (∀ d, parseInteger None d = d) ∧
  (∀ s d, int_of_str (str_strip s) = None → parseInteger (Some s) d = d) ∧
  (∀ s d n, int_of_str (str_strip s) = Some n → parseInteger (Some s) d = n) ∧
  (∀ t d, parseInteger t d = default d (numeric_value t)) ∧
  (∀ p places pid,
     get p "id" = Some pid → dict_mem pid places = false →
     ∃ pl, parse_place p places = Ok (places ++ [(pid, pl)]) ∧
           Place.initial_marking pl = default 0%Z (numeric_value (im_text p))) ∧
  (∀ a arcs aid src tgt,
     get a "id" = Some aid → dict_mem aid arcs = false →
     get a "source" = Some src → get a "target" = Some tgt →
     (numeric_value (weight_text a) = None →
        parse_arc a arcs = Ok (arcs ++ [(aid, Arc.mk aid src tgt 1)])) ∧
     (∀ w, numeric_value (weight_text a) = Some w → (0 < w)%Z →
        parse_arc a arcs = Ok (arcs ++ [(aid, Arc.mk aid src tgt w)])) ∧
     (∀ w, numeric_value (weight_text a) = Some w → (w ≤ 0)%Z →
        parse_arc a arcs = Raise (NonPositiveWeight aid w))) ∧
  (∀ elems,
     (∃ places, for_each parse_place elems [] = Ok places) ↔
     ids_distinct elems) ∧
  (∀ elems places,
     for_each parse_place elems [] = Ok places →
     Forall2 (λ p kv, get p "id" = Some kv.1 ∧
                      Place.initial_marking kv.2
                      = default 0%Z (numeric_value (im_text p)))
             elems places) ∧
  (∀ elems,
     (∃ arcs, for_each parse_arc elems [] = Ok arcs) ↔
     ids_distinct elems ∧ Forall arc_accepted elems) ∧
  (∀ elems arcs,
     for_each parse_arc elems [] = Ok arcs →
     Forall2 (λ a kv, get a "id" = Some kv.1 ∧
                      Arc.weight kv.2
                      = default 1%Z (numeric_value (weight_text a)))
             elems arcs) ∧
  (∀ a arcs aid w,
     parse_arc a arcs = Raise (NonPositiveWeight aid w) ↔
     get a "id" = Some aid ∧ dict_mem aid arcs = false ∧
     is_Some (get a "source") ∧ is_Some (get a "target") ∧
     numeric_value (weight_text a) = Some w ∧ (w ≤ 0)%Z) ∧
  (∀ root require_1safe aid w,
     parsePNML root require_1safe = Raise (NonPositiveWeight aid w) ↔
     ∃ net_elem done a rest,
       find_net (strip_namespace root) = Some net_elem ∧
       ids_distinct (findall net_elem "place") ∧
       ids_distinct (findall net_elem "transition") ∧
       findall net_elem "arc" = done ++ a :: rest ∧
       ids_distinct done ∧ Forall arc_accepted done ∧
       get a "id" = Some aid ∧ (Some aid ∉ (λ e, get e "id") <$> done) ∧
       is_Some (get a "source") ∧ is_Some (get a "target") ∧
       numeric_value (weight_text a) = Some w ∧ (w ≤ 0)%Z).
Proof.
  split_and!.
  - done.
  - intros s d Hs. unfold parseInteger. by rewrite Hs.
  - intros s d n Hs. unfold parseInteger. by rewrite Hs.
  - apply parseInteger_numeric_value.
  - intros p places pid Hid Hm. eexists. split.
    + apply parse_place_spec. exists pid. by split_and!.
    + simpl. apply parseInteger_numeric_value.
  - intros a arcs aid src tgt Hid Hm Hs Ht.
    pose proof (parseInteger_numeric_value (weight_text a) 1) as Hw.
    unfold parse_arc. rewrite Hid, Hm, Hs, Ht, Hw. split_and!.
    + intros ->. simpl. by rewrite dict_set_fresh.
    + intros w -> Hpos. simpl. rewrite decide_False by lia.
      by rewrite dict_set_fresh.
    + intros w -> Hle. simpl. by rewrite decide_True.
  - apply parse_places_ids_distinct.
  - intros elems places Hp.
    apply (keyed_loop_Forall2 parse_place _ _ parse_place_spec) in Hp.
    eapply Forall2_impl; [done|]. intros p [k pl] [Hk ->]. split; [done|].
    simpl. apply parseInteger_numeric_value.
  - apply parse_arcs_accepted.
  - intros elems arcs Ha.
    apply (keyed_loop_Forall2 parse_arc _ _ parse_arc_spec) in Ha.
    eapply Forall2_impl; [done|]. intros a [k arc] [Hk ->]. split; [done|].
    simpl. apply parseInteger_numeric_value.
  - intros a arcs aid w. rewrite parse_arc_NonPositiveWeight.
    by rewrite numeric_value_Some.
  - intros root require_1safe aid w.
    rewrite <-build_net_NonPositiveWeight, parsePNML_Raise. split; [|by left].
    by intros [Hb|(net & _ & [[_ ?]|(_ & _ & [[_ ?]|(_ & _ & ?)])])].
Qed.
